(** * localMind: chunking, ingestion, retrieval and prompt assembly

    A shallow embedding of [localmind/ingest.py] and [localmind/rag.py].

    - Python [str] is the list of its Unicode code points ([list N]).
    - Python [int] is [Z] ([N] for the chunk index and [id(raw)], which are
      never negative); [len] is [Z.of_nat (length _)].
    - [dict] metadata is a [gmap string value].
    - A function that may raise returns a sum: the message of the
      exception, or the value.
    - The storage collaborator (a ChromaDB collection) is given by its
      answers; the calls made to it are returned as a trace. *)

From Stdlib Require Import ZArith NArith Ascii String Decimal DecimalN.
From stdpp Require Import base tactics option list strings gmap.

Open Scope Z_scope.

(** ** Python strings *)

Module Str.

(** A character is its code point; a string is the list of its characters.
    (Abbreviations, so that the list lemmas apply as they are.) *)
Abbreviation char := N (only parsing).
Abbreviation str := (list N) (only parsing).

(** A literal of the source, read code point by code point. *)
Definition lit (s : string) : str :=
  (fun a : ascii => N_of_ascii a) <$> list_ascii_of_string s.

Definition NL : char := 10%N.
Definition SP : char := 32%N.
Definition DOT : char := 46%N.

(** [str.isspace] on one code point, which is also what [\s] matches in a
    [str] pattern: CPython's [_PyUnicode_IsWhitespace]. *)
Definition isspace (c : char) : bool :=
  ((9 <=? c) && (c <=? 13) || (28 <=? c) && (c <=? 32)
   || (c =? 133) || (c =? 160) || (c =? 5760)
   || (8192 <=? c) && (c <=? 8202)
   || (c =? 8232) || (c =? 8233) || (c =? 8239) || (c =? 8287)
   || (c =? 12288))%N.

(** [len], of a string or of a list. *)
Definition len {A} (s : list A) : Z := Z.of_nat (length s).

(** [s.lstrip()], [s.rstrip()], [s.strip()] *)
Fixpoint lstrip (s : str) : str :=
  match s with
  | [] => []
  | c :: s' => if isspace c then lstrip s' else s
  end.

Definition rstrip (s : str) : str := reverse (lstrip (reverse s)).

Definition strip (s : str) : str := lstrip (rstrip s).

(** [s.startswith(p)] *)
Fixpoint startswith (p s : str) : bool :=
  match p, s with
  | [], _ => true
  | _ :: _, [] => false
  | a :: p', b :: s' => bool_decide (a = b) && startswith p' s'
  end.

(** [s.endswith(p)] *)
Definition endswith (p s : str) : bool := startswith (reverse p) (reverse s).

(** [p in s] *)
Fixpoint contains (p s : str) : bool :=
  startswith p s || match s with [] => false | _ :: s' => contains p s' end.

(** [s.split(sep)] for a non-empty [sep]: the occurrences of [sep] are found
    left to right and do not overlap.  [skip] counts the characters of a
    matched occurrence that are still to be passed over; [cur] is the part
    being read. *)
Fixpoint split_go (sep : str) (skip : nat) (cur : str) (s : str) : list str :=
  match s with
  | [] => [cur]
  | c :: s' =>
      match skip with
      | S k => split_go sep k cur s'
      | O =>
          if startswith sep s
          then cur :: split_go sep (length sep - 1) [] s'
          else split_go sep 0 (cur ++ [c]) s'
      end
  end.

Definition split (sep s : str) : list str := split_go sep 0 [] s.

(** [re.split(r"\s+", s)]: the parts between the maximal runs of whitespace;
    a run at either end leaves an empty part there.  [in_run] says that the
    previous character belonged to the run being matched. *)
Fixpoint re_split_go (in_run : bool) (cur : str) (s : str) : list str :=
  match s with
  | [] => [cur]
  | c :: s' =>
      if isspace c then
        if in_run then re_split_go true cur s'
        else cur :: re_split_go true [] s'
      else re_split_go false (cur ++ [c]) s'
  end.

Definition re_split_ws (s : str) : list str := re_split_go false [] s.

(** [sep.join(parts)] *)
Fixpoint join (sep : str) (parts : list str) : str :=
  match parts with
  | [] => []
  | [p] => p
  | p :: rest => p ++ sep ++ join sep rest
  end.

(** [s[-k:]] for [k > 0]: the last [k] characters, all of [s] when it is
    shorter. *)
Definition last_chars (k : Z) (s : str) : str :=
  drop (length s - Z.to_nat k)%nat s.

(** [str(n)] for a non-negative integer. *)
Fixpoint digits (u : Decimal.uint) : str :=
  match u with
  | Nil => []
  | D0 u => 48%N :: digits u
  | D1 u => 49%N :: digits u
  | D2 u => 50%N :: digits u
  | D3 u => 51%N :: digits u
  | D4 u => 52%N :: digits u
  | D5 u => 53%N :: digits u
  | D6 u => 54%N :: digits u
  | D7 u => 55%N :: digits u
  | D8 u => 56%N :: digits u
  | D9 u => 57%N :: digits u
  end.

Definition str_of_N (n : N) : str := digits (N.to_uint n).

(** [str(n)] for any integer. *)
Definition str_of_Z (n : Z) : str :=
  if n <? 0 then 45%N :: str_of_N (Z.to_N (- n)) else str_of_N (Z.to_N n).

End Str.

(** ** The chunker: [localmind.ingest._chunk_text] *)

Module Chunker.
Import Str.

Definition separators : list str := [[NL; NL]; [NL]; [DOT; SP]; [SP]].

(** [overlap_start]: the seed of the next segment. *)
Definition overlap_start (overlap : Z) (current : str) : str :=
  if overlap <=? 0 then []
  else if overlap <=? len current then last_chars overlap current
  else current.

(** [add] for the part at index [i] of [n] parts. *)
Definition add_of (sep : str) (n : nat) (i : nat) (part : str) : str :=
  if bool_decide (sep = [SP]) then part
  else part ++ (if Z.of_nat i <? Z.of_nat n - 1 then sep else []).

(** One turn of the loop over the parts; the state is
    [(current, new_chunks)]. *)
Definition pack_step (chunk_size overlap : Z)
    (st : str * list str) (add : str) : str * list str :=
  let '(current, new_chunks) := st in
  if len current + len add <=? chunk_size then (current ++ add, new_chunks)
  else
    (overlap_start overlap current ++ add,
     if bool_decide (current <> []) then new_chunks ++ [strip current]
     else new_chunks).

(** The body of the loop over [chunks], for one segment [c]. *)
Definition split_segment (chunk_size overlap : Z) (sep : str)
    (new_chunks : list str) (c : str) : list str :=
  if len c <=? chunk_size then new_chunks ++ [c]
  else
    let parts :=
      if bool_decide (sep <> [SP]) then split sep c else re_split_ws c in
    let adds := imap (add_of sep (length parts)) parts in
    let '(current, new_chunks) :=
      foldl (pack_step chunk_size overlap) ([], new_chunks) adds in
    if bool_decide (strip current <> []) then new_chunks ++ [strip current]
    else new_chunks.

(** One separator level: the loop over [chunks]. *)
Definition level (chunk_size overlap : Z) (chunks : list str) (sep : str)
    : list str :=
  foldl (fun new_chunks c => split_segment chunk_size overlap sep new_chunks c)
        [] chunks.

Definition _chunk_text (text : str) (chunk_size overlap : Z) : list str :=
  if bool_decide (text = []) || bool_decide (strip text = []) then []
  else
    let chunks := foldl (level chunk_size overlap) [text] separators in
    filter (fun c => strip c <> []) chunks.

End Chunker.

(** ** Ingestion: [localmind.ingest] *)

Module Ingest.
Import Str Chunker.

(** A metadata value: a string or an integer. *)
Inductive value := VStr (s : list N) | VInt (n : Z).

#[global] Instance value_eq_dec : EqDecision value.
Proof. solve_decision. Defined.

(** A [dict] with string keys. *)
Abbreviation metadata := (gmap string value) (only parsing).

(** A result or a raised exception, with its message. *)
Abbreviation raised := inl (only parsing).
Abbreviation returned := inr (only parsing).

(** What the file system and the readers say about one path: [PdfReader]
    and [read_text] are collaborators, so their answers are part of the
    input. *)
Record path_info := {
  p_str : list N;                  (* str(path) *)
  p_name : list N;                 (* path.name *)
  p_stem : list N;                 (* path.stem *)
  p_suffix_lower : list N;         (* path.suffix.lower() *)
  p_exists : bool;                 (* path.exists() *)
  p_is_file : bool;                (* path.is_file() *)
  p_pdf_pages : list N + list (list N);
      (* PdfReader(str(path)).pages, each as [extract_text() or ""] *)
  p_read_text : list N + list N    (* path.read_text(...) *)
}.

(** A path given to [ingest_paths], resolved, with what [rglob("*")] yields
    under it. *)
Record resolved_path := {
  r_path : path_info;
  r_rglob : list path_info
}.

(** [load_pdf] *)
Definition load_pdf (path : path_info) : list N + list (list N * metadata) :=
  match p_pdf_pages path with
  | raised e => raised e
  | returned pages =>
      returned
        (omap id
           (imap (fun i text =>
                    if bool_decide (strip text <> []) then
                      Some (text,
                            {[ "source" := VStr (p_name path);
                               "page" := VInt (Z.of_nat i + 1) ]} : metadata)
                    else None)
                 pages))
  end.

(** [load_text] *)
Definition load_text (path : path_info) : list N + list (list N * metadata) :=
  match p_read_text path with
  | raised e => raised e
  | returned text =>
      if bool_decide (strip text = []) then returned []
      else returned [(text, {[ "source" := VStr (p_name path) ]} : metadata)]
  end.

(** [load_document] *)
Definition load_document (path : path_info)
    : list N + list (list N * metadata) :=
  if negb (p_exists path) then returned []
  else
    let suf := p_suffix_lower path in
    if bool_decide (suf = lit ".pdf") then load_pdf path
    else if bool_decide (suf ∈ [lit ".txt"; lit ".md"; lit ".text"])
    then load_text path
    else returned [].

(** The calls made to the storage collaborator. *)
Inductive call :=
  | GetOrCreateCollection
  | Add (ids documents : list (list N)) (metadatas : list metadata).

(** The accumulators of one invocation. *)
Record acc := {
  errors : list (list N);
  all_ids : list (list N);
  all_chunks : list (list N);
  all_metadatas : list metadata
}.

Definition empty_acc : acc :=
  {| errors := []; all_ids := []; all_chunks := []; all_metadatas := [] |}.

Definition add_error (a : acc) (msg : list N) : acc :=
  {| errors := errors a ++ [msg]; all_ids := all_ids a;
     all_chunks := all_chunks a; all_metadatas := all_metadatas a |}.

(** The body of [for chunk in _chunk_text(text)]; [doc_id] is the
    identifier as a function of [idx]. *)
Definition append_chunk (doc_id : N -> list N) (meta : metadata)
    (st : acc * N) (chunk : list N) : acc * N :=
  let '(a, idx) := st in
  ({| errors := errors a;
      all_ids := all_ids a ++ [doc_id idx];
      all_chunks := all_chunks a ++ [chunk];
      all_metadatas := all_metadatas a ++ [meta] |},
   (idx + 1)%N).

Section Pipeline.
(** [CHUNK_SIZE] and [CHUNK_OVERLAP] of [localmind.config], read from the
    environment when the module is loaded. *)
Context (CHUNK_SIZE CHUNK_OVERLAP : Z).

(** [f"{base_name}_{idx}"] *)
Definition path_doc_id (base_name : list N) (idx : N) : list N :=
  base_name ++ lit "_" ++ str_of_N idx.

(** [add_file] of [ingest_paths]; an exception of the loader is not
    caught. *)
Definition add_file (file_path : path_info) (a : acc) : list N + acc :=
  match load_document file_path with
  | raised e => raised e
  | returned [] =>
      if bool_decide
           (p_suffix_lower file_path ∈ [lit ".pdf"; lit ".txt"; lit ".md"])
      then returned
             (add_error a (lit "Empty or unreadable: " ++ p_str file_path))
      else returned a
  | returned items =>
      let base_name := p_stem file_path in
      returned
        (foldl (fun st '(text, meta) =>
                  foldl (append_chunk (path_doc_id base_name) meta) st
                        (_chunk_text text CHUNK_SIZE CHUNK_OVERLAP))
               (a, 0%N) items).1
  end.

(** A loop whose body may raise. *)
Fixpoint for_each {A S : Type} (body : A -> S -> list N + S)
    (l : list A) (s : S) : list N + S :=
  match l with
  | [] => returned s
  | x :: l' =>
      match body x s with
      | raised e => raised e
      | returned s' => for_each body l' s'
      end
  end.

(** The body of [for p in paths]; [p] is the resolved path. *)
Definition visit_path (rp : resolved_path) (a : acc) : list N + acc :=
  let p := r_path rp in
  if negb (p_exists p) then
    returned (add_error a (lit "Not found: " ++ p_str p))
  else if p_is_file p then add_file p a
  else
    for_each
      (fun f a =>
         if p_is_file f
            && bool_decide (p_suffix_lower f
                            ∈ [lit ".pdf"; lit ".txt"; lit ".md"; lit ".text"])
         then add_file f a else returned a)
      (r_rglob rp) a.

(** [ingest_paths]: the calls made and the value returned, or the
    exception raised. *)
(** The loop [for p in paths], from the empty accumulators. *)
Definition accumulate_paths (paths : list resolved_path) : list N + acc :=
  for_each visit_path paths empty_acc.

Definition ingest_paths (paths : list resolved_path)
    : list call * (list N + Z * list (list N)) :=
  match accumulate_paths paths with
  | raised e => ([GetOrCreateCollection], raised e)
  | returned a =>
      if bool_decide (all_chunks a = []) then
        ([GetOrCreateCollection], returned (0, errors a))
      else
        ([GetOrCreateCollection;
          Add (all_ids a) (all_chunks a) (all_metadatas a)],
         returned (len (all_ids a), errors a))
  end.

(** A [bytes] object: its identity [id(raw)] and its content. *)
Record bytes_obj := { obj_id : N; obj_data : list N }.

(** The collaborators of [ingest_files_in_memory]: the temporary file of
    the given suffix and content as the loader sees it, and
    [Path(name).stem]. *)
Context (temp_file : list N -> bytes_obj -> path_info).
Context (stem_of : list N -> list N).

(** [f"{base_name}_{idx}_{id(raw)}"] *)
Definition memory_doc_id (base_name : list N) (raw : bytes_obj) (idx : N)
    : list N :=
  base_name ++ lit "_" ++ str_of_N idx ++ lit "_" ++ str_of_N (obj_id raw).

(** The body of the loop over [zip(file_contents, filenames)]. *)
Definition ingest_upload (a : acc)
    (item : (list N * bytes_obj * list N) * list N) : acc :=
  let '((name, raw, ext), display_name) := item in
  let tmp_path :=
    temp_file (if bool_decide (ext <> []) then ext else lit ".txt") raw in
  match load_document tmp_path with
  | raised e => add_error a (display_name ++ lit ": " ++ e)
  | returned [] => add_error a (lit "Empty or unreadable: " ++ display_name)
  | returned items =>
      let base_name := stem_of display_name in
      (foldl (fun st '(text, meta) =>
                let meta : metadata :=
                  <[ "source" := VStr display_name ]> meta in
                foldl (append_chunk (memory_doc_id base_name raw) meta) st
                      (_chunk_text text CHUNK_SIZE CHUNK_OVERLAP))
             (a, 0%N) items).1
  end.

(** The loop over [zip(file_contents, filenames)], from the empty
    accumulators. *)
Definition accumulate_uploads
    (file_contents : list (list N * bytes_obj * list N))
    (filenames : list (list N)) : acc :=
  foldl ingest_upload empty_acc (zip file_contents filenames).

(** [ingest_files_in_memory] *)
Definition ingest_files_in_memory
    (file_contents : list (list N * bytes_obj * list N))
    (filenames : list (list N)) : list call * (Z * list (list N)) :=
  let a := accumulate_uploads file_contents filenames in
  if bool_decide (all_chunks a = []) then
    ([GetOrCreateCollection], (0, errors a))
  else
    ([GetOrCreateCollection;
      Add (all_ids a) (all_chunks a) (all_metadatas a)],
     (len (all_chunks a), errors a)).

End Pipeline.

End Ingest.

(** ** Retrieval and prompt assembly: [localmind.rag] *)

Module Rag.
Import Str Ingest.

(** A Python value, as far as [ask] looks into the response of the chat
    collaborator: [None], a string, a [dict] with string keys, or any other
    object with its attributes. *)
#[local] Set Warnings "-register-all".
Inductive pyval :=
  | PNone
  | PStr (s : list N)
  | PDict (items : list (string * pyval))
  | PObj (attrs : list (string * pyval)).

(** The value bound to [key] in a list of bindings. *)
Fixpoint binding (key : string) (l : list (string * pyval)) : option pyval :=
  match l with
  | [] => None
  | (k, v) :: l' => if bool_decide (k = key) then Some v else binding key l'
  end.

(** [bool(v)]. *)
Definition truth (v : pyval) : bool :=
  match v with
  | PNone => false
  | PStr s => bool_decide (s <> [])
  | PDict items => bool_decide (items <> [])
  | PObj _ => true
  end.

(** [a or b]. *)
Definition py_or (a b : pyval) : pyval := if truth a then a else b.

(** [getattr(v, name, default)] for a name that [dict], [str] and [None]
    do not have. *)
Definition getattr (v : pyval) (name : string) (default : pyval) : pyval :=
  match v with
  | PObj attrs => from_option id default (binding name attrs)
  | _ => default
  end.

(** [d.get(key)] for a [dict] with the bindings [items]. *)
Definition dict_get (items : list (string * pyval)) (key : string) : pyval :=
  from_option id PNone (binding key items).

(** The two lines of [ask] that read the answer off the response. *)
Definition answer_of (response : pyval) : pyval :=
  let message :=
    match response with
    | PDict items => py_or (dict_get items "message") (PDict [])
    | _ => getattr response "message" response
    end in
  py_or
    (py_or (getattr message "content" PNone)
           (match message with
            | PDict items => dict_get items "content"
            | _ => PStr []
            end))
    (PStr []).

Section Retrieval.
(** A distance is a float; only [0.0] is ever built here. *)
Context {dist : Type} (zero : dist).

(** The answer of [collection.query] for the one query text:
    [documents] and [metadatas] are [results[...][0]] ([None] when it is
    [None]), [distances] is [results["distances"][0]] ([None] when
    [results.get("distances")] is falsy). *)
Record query_result := {
  documents : option (list (list N));
  metadatas : option (list metadata);
  distances : option (list dist)
}.

(** The collection, as the answers it gives. *)
Record collection := {
  count : Z;
  query : list (list N) -> Z -> query_result
}.

(** The calls made to the collection. *)
Inductive call :=
  | Count
  | Query (query_texts : list (list N)) (n_results : Z).

(** [retrieve]: the calls made and the list returned. *)
Definition retrieve (coll : collection) (question : list N) (top_k : Z)
    : list call * list (list N * metadata * dist) :=
  if count coll =? 0 then ([Count], [])
  else
    let n_results := Z.min top_k (count coll) in
    let results := query coll [question] n_results in
    let docs := default [] (documents results) in
    let metas := default [] (metadatas results) in
    let dists :=
      match distances results with
      | Some d => d
      | None => replicate (length docs) zero
      end in
    ([Count; Count; Query [question] n_results], zip (zip docs metas) dists).

(** How an f-string shows a metadata value. *)
Definition render (v : value) : list N :=
  match v with VStr s => s | VInt n => str_of_Z n end.

(** The truth value of [m.get(key)]. *)
Definition truthy (v : option value) : bool :=
  match v with
  | Some (VStr s) => bool_decide (s <> [])
  | Some (VInt n) => bool_decide (n <> 0)
  | None => false
  end.

(** The labelled block of one chunk. *)
Definition source_block (text : list N) (m : metadata) : list N :=
  (lit "[Source: " ++ render (default (VStr (lit "unknown")) (m !! "source")))
  ++ (if truthy (m !! "page")
      then lit ", page " ++ from_option render [] (m !! "page")
      else [])
  ++ lit "]" ++ [NL] ++ text.

(** [build_prompt] *)
Definition build_prompt (question : list N)
    (chunks : list (list N * metadata * dist)) : list N :=
  match chunks with
  | [] =>
      lit "No relevant documents were found. Answer based on your general knowledge "
      ++ lit "and say you have no document context." ++ [NL; NL]
      ++ lit "Question: " ++ question
  | _ =>
      let context :=
        join ([NL; NL] ++ lit "---" ++ [NL; NL])
             ((fun '(text, m, _) => source_block text m) <$> chunks) in
      lit "Use the following context from the user's documents to answer the question. "
      ++ lit "If the context does not contain enough information, say so."
      ++ [NL; NL] ++ lit "Context:" ++ [NL] ++ context ++ [NL; NL]
      ++ lit "Question: " ++ question
  end.

(** What [ask] does: a call to the collection or a chat request. *)
Inductive action :=
  | Store (c : call)
  | Chat (model : list N) (messages : list (list N * list N)) (stream : bool).

(** [ask]: the actions and the pair returned.  [chat] is the chat
    collaborator and [CHAT_MODEL] the configured model; with [stream] the
    collaborator's generator is returned as it is. *)
Definition ask (coll : collection)
    (chat : list N -> list (list N * list N) -> bool -> pyval)
    (CHAT_MODEL : list N) (question : list N) (top_k : Z) (stream : bool)
    : list action * (pyval * list (list N * metadata * dist)) :=
  let '(calls, chunks) := retrieve coll question top_k in
  let prompt := build_prompt question chunks in
  let messages := [(lit "user", prompt)] in
  let response := chat CHAT_MODEL messages stream in
  ((Store <$> calls) ++ [Chat CHAT_MODEL messages stream],
   (if stream then response else answer_of response, chunks)).

End Retrieval.

End Rag.

(** ** Vocabulary of the statements *)

Section ChunkerVocabulary.
Import Str Chunker.
Context (chunk_size overlap : Z).

(** No character of [s] is whitespace. *)
Definition no_ws (s : str) : Prop := Forall (fun c => isspace c = false) s.

(** The non-whitespace characters of [s], in order. *)
Definition nws (s : str) : str := filter (fun c => isspace c = false) s.

Definition starts_ws (s : str) : bool :=
  match s with c :: _ => isspace c | [] => false end.

Definition ends_ws (s : str) : bool := starts_ws (reverse s).

(** Neither the first nor the last character is whitespace. *)
Definition trimmed (s : str) : Prop := starts_ws s = false /\ ends_ws s = false.

(** What the loop over the parts appends to [new_chunks], final segment
    included, from the state [current] on. *)
Fixpoint run (current : str) (adds : list str) : list str :=
  match adds with
  | [] => if bool_decide (strip current <> []) then [strip current] else []
  | add :: rest =>
      if len current + len add <=? chunk_size then run (current ++ add) rest
      else
        (if bool_decide (current <> []) then [strip current] else [])
        ++ run (overlap_start overlap current ++ add) rest
  end.

(** The [add]s of a segment at one separator level. *)
Definition adds_of (sep : str) (c : str) : list str :=
  let parts :=
    if bool_decide (sep <> [SP]) then split sep c else re_split_ws c in
  imap (add_of sep (length parts)) parts.

(** What one segment contributes at one separator level. *)
Definition segment (sep : str) (c : str) : list str :=
  if len c <=? chunk_size then [c] else run [] (adds_of sep c).

(** Chunk [c] is a duplicated prefix [d] followed by the body [b],
    whitespace apart; without overlap nothing is duplicated. *)
Definition body_of (c b : str) : Prop :=
  exists d, nws c = d ++ b /\ (overlap <= 0 -> d = []).

(** The chunks cover [t]: each chunk ends with a body of its own, and the
    bodies, one after the other, are the non-whitespace characters of [t]. *)
Definition covers (chunks : list str) (t : str) : Prop :=
  exists bodies, Forall2 body_of chunks bodies /\ concat bodies = nws t.

(** [w] occurs in [t] as one contiguous piece. *)
Definition piece_of (w t : str) : Prop := exists a b, t = a ++ w ++ b.

(** The length of the longest run of characters of [s] without whitespace;
    [cur] is the length of the run being read, [best] the longest run
    closed so far. *)
Fixpoint longest_run (cur best : nat) (s : str) : nat :=
  match s with
  | [] => Nat.max cur best
  | c :: s' =>
      if isspace c then longest_run 0 (Nat.max cur best) s'
      else longest_run (S cur) best s'
  end.

Definition longest_word (s : str) : Z := Z.of_nat (longest_run 0 0 s).

(** Chunk [c], written when the text [pre] was covered, is a copy [d] of
    characters of [pre] followed by the body [b], whitespace apart.  The
    copy has at most [overlap] characters and is one piece of [pre]; when
    the chunk has a body, the copy is the end of [pre]: the characters
    just before the body. *)
Definition seeded_body (pre c b : str) : Prop :=
  exists d, nws c = d ++ b
            /\ len d <= Z.max 0 overlap
            /\ piece_of d pre
            /\ (b <> [] -> d `suffix_of` pre).

(** The chunks, one after the other, continue [pre] by their bodies. *)
Inductive continues : str -> list str -> list str -> Prop :=
  | continues_nil pre : continues pre [] []
  | continues_cons pre c b chunks bodies :
      seeded_body pre c b ->
      continues (pre ++ b) chunks bodies ->
      continues pre (c :: chunks) (b :: bodies).

(** The chunks hold the non-whitespace characters of [t] once and in
    order, the copies made for the overlap apart. *)
Definition covers_once (chunks : list str) (t : str) : Prop :=
  exists bodies, continues [] chunks bodies /\ concat bodies = nws t.

(** Chunk [c] fits, or it is longer than one piece [w] of [t] without
    whitespace (a word of [t], or a part of one) by a seed at most: by
    [overlap] characters or fewer.  Without overlap it is that piece. *)
Definition fits_or_seeded_word (t c : str) : Prop :=
  len c <= chunk_size
  \/ exists w, no_ws w /\ piece_of w t
               /\ len c <= Z.max 0 overlap + len w
               /\ (overlap <= 0 -> c = w).

End ChunkerVocabulary.

(** One chunk as it is handed to storage. *)
Abbreviation record := (list N * list N * gmap string Ingest.value)%type
  (only parsing).

Section IngestVocabulary.
Import Str Chunker Ingest.
Context (CHUNK_SIZE CHUNK_OVERLAP : Z).
Context (temp_file : list N -> bytes_obj -> path_info).
Context (stem_of : list N -> list N).

(** A text file [/docs/a<suffix>] whose content is ["x"]. *)
Definition file_a (suffix : string) : path_info :=
  {| p_str := lit "/docs/a" ++ lit suffix;
     p_name := lit "a" ++ lit suffix;
     p_stem := lit "a";
     p_suffix_lower := lit suffix;
     p_exists := true;
     p_is_file := true;
     p_pdf_pages := returned [];
     p_read_text := returned (lit "x") |}.

(** The batch inserts among the calls. *)
Definition inserts (trace : list call)
    : list (list (list N) * list (list N) * list (gmap string value)) :=
  omap (fun c => match c with
                 | Add ids docs metas => Some (ids, docs, metas)
                 | GetOrCreateCollection => None
                 end) trace.

Definition record_id (r : record) : list N := r.1.1.
Definition record_chunk (r : record) : list N := r.1.2.
Definition record_meta (r : record) : gmap string value := r.2.

(** The chunks of the text units of one document, in order, each with the
    metadata of its unit ([f] is what the pipeline does to the metadata). *)
Definition unit_chunks (f : gmap string value -> gmap string value)
    (items : list (list N * gmap string value))
    : list (list N * gmap string value) :=
  items ≫= (fun '(text, meta) =>
              (fun chunk => (chunk, f meta))
                <$> _chunk_text text CHUNK_SIZE CHUNK_OVERLAP).

(** The chunks of one document numbered from [start] on. *)
Definition numbered (doc_id : N -> list N) (start : N)
    (chunks : list (list N * gmap string value)) : list record :=
  imap (fun i '(chunk, meta) => (doc_id (start + N.of_nat i)%N, chunk, meta))
       chunks.

(** The records of one file of [ingest_paths]. *)
Definition file_records (file_path : path_info) : list record :=
  match load_document file_path with
  | raised _ => []
  | returned items =>
      numbered (path_doc_id (p_stem file_path)) 0 (unit_chunks id items)
  end.

(** The files [ingest_paths] hands to [add_file] for one path. *)
Definition files_of (rp : resolved_path) : list path_info :=
  if negb (p_exists (r_path rp)) then []
  else if p_is_file (r_path rp) then [r_path rp]
  else
    List.filter
      (fun f =>
         p_is_file f
         && bool_decide (p_suffix_lower f
                         ∈ [lit ".pdf"; lit ".txt"; lit ".md"; lit ".text"]))
      (r_rglob rp).

(** All the records of a batch of paths. *)
Definition batch_records (paths : list resolved_path) : list record :=
  (paths ≫= files_of) ≫= file_records.

(** [a'] is [a] with the records [rs] appended, position by position. *)
Definition extends (a a' : acc) (rs : list record) : Prop :=
  all_ids a' = all_ids a ++ (record_id <$> rs)
  /\ all_chunks a' = all_chunks a ++ (record_chunk <$> rs)
  /\ all_metadatas a' = all_metadatas a ++ (record_meta <$> rs).

(** The records of one upload of [ingest_files_in_memory]. *)
Definition upload_records
    (item : (list N * bytes_obj * list N) * list N) : list record :=
  let '((name, raw, ext), display_name) := item in
  match load_document
          (temp_file (if bool_decide (ext <> []) then ext else lit ".txt") raw)
  with
  | raised _ => []
  | returned items =>
      numbered (memory_doc_id (stem_of display_name) raw) 0
        (unit_chunks
           (fun meta => <[ "source" := VStr display_name ]> meta) items)
  end.

(** All the records of a batch of uploads. *)
Definition upload_batch_records
    (file_contents : list (list N * bytes_obj * list N))
    (filenames : list (list N)) : list record :=
  zip file_contents filenames ≫= upload_records.

(** An existing text file [/docs/<stem><suffix>] with the given content. *)
Definition text_file (stem suffix content : string) : path_info :=
  {| p_str := lit "/docs/" ++ lit stem ++ lit suffix;
     p_name := lit stem ++ lit suffix;
     p_stem := lit stem;
     p_suffix_lower := lit suffix;
     p_exists := true;
     p_is_file := true;
     p_pdf_pages := returned [];
     p_read_text := returned (lit content) |}.

(** A path [/docs/<name>] at which nothing exists. *)
Definition missing_path (name : string) : path_info :=
  {| p_str := lit "/docs/" ++ lit name;
     p_name := lit name;
     p_stem := lit name;
     p_suffix_lower := [];
     p_exists := false;
     p_is_file := false;
     p_pdf_pages := raised (lit "no such file");
     p_read_text := raised (lit "no such file") |}.

(** An existing PDF file [/docs/<stem>.pdf] with the given page texts. *)
Definition pdf_file (stem : string) (pages : list string) : path_info :=
  {| p_str := lit "/docs/" ++ lit stem ++ lit ".pdf";
     p_name := lit stem ++ lit ".pdf";
     p_stem := lit stem;
     p_suffix_lower := lit ".pdf";
     p_exists := true;
     p_is_file := true;
     p_pdf_pages := returned (lit <$> pages);
     p_read_text := raised (lit "not a text file") |}.

(** An existing file [/docs/<stem>.pdf] that [PdfReader] refuses: the
    reader raises an exception with the message [msg]. *)
Definition unreadable_pdf (stem msg : string) : path_info :=
  {| p_str := lit "/docs/" ++ lit stem ++ lit ".pdf";
     p_name := lit stem ++ lit ".pdf";
     p_stem := lit stem;
     p_suffix_lower := lit ".pdf";
     p_exists := true;
     p_is_file := true;
     p_pdf_pages := raised (lit msg);
     p_read_text := raised (lit "not a text file") |}.

(** The temporary file that holds an upload, as the loader sees it: read
    as text it gives the bytes of the upload; read as a PDF it is refused
    (none of the uploads below is a PDF document). *)
Definition upload_as_file (ext : list N) (raw : bytes_obj) : path_info :=
  {| p_str := lit "/tmp/tmpupload" ++ ext;
     p_name := lit "tmpupload" ++ ext;
     p_stem := lit "tmpupload";
     p_suffix_lower := ext;
     p_exists := true;
     p_is_file := true;
     p_pdf_pages := raised (lit "EOF marker not found");
     p_read_text := returned (obj_data raw) |}.

(** [Path(name).stem] for a name with a suffix of three letters. *)
Definition stem_of_name (name : list N) : list N :=
  take (length name - 4) name.

(** What distinguishes the identifiers of one upload from those of
    another: the base name and the identity of the bytes. *)
Definition upload_key (item : (list N * bytes_obj * list N) * list N)
    : list N * N :=
  let '((name, raw, ext), display_name) := item in
  (stem_of display_name, obj_id raw).

(** The error message [add_file] records for one file, if any. *)
Definition file_error (file_path : path_info) : option (list N) :=
  match load_document file_path with
  | returned [] =>
      if bool_decide
           (p_suffix_lower file_path ∈ [lit ".pdf"; lit ".txt"; lit ".md"])
      then Some (lit "Empty or unreadable: " ++ p_str file_path)
      else None
  | _ => None
  end.

(** The error messages [ingest_paths] records for one path. *)
Definition path_errors (rp : resolved_path) : list (list N) :=
  if negb (p_exists (r_path rp)) then [lit "Not found: " ++ p_str (r_path rp)]
  else omap file_error (files_of rp).

(** The error message [ingest_files_in_memory] records for one upload, if
    any. *)
Definition upload_error
    (item : (list N * bytes_obj * list N) * list N) : option (list N) :=
  let '((name, raw, ext), display_name) := item in
  match load_document
          (temp_file (if bool_decide (ext <> []) then ext else lit ".txt") raw)
  with
  | raised e => Some (display_name ++ lit ": " ++ e)
  | returned [] => Some (lit "Empty or unreadable: " ++ display_name)
  | returned (_ :: _) => None
  end.

End IngestVocabulary.

(** ** Facts about the string operations *)

Section StrFacts.
Import Str.

Lemma len_app (s t : list N) : len (s ++ t) = len s + len t.
Proof. unfold len. rewrite length_app. lia. Qed.

Lemma len_nonneg (s : list N) : 0 <= len s.
Proof. unfold len. lia. Qed.

Lemma no_ws_app s t : no_ws (s ++ t) <-> no_ws s /\ no_ws t.
Proof. apply Forall_app. Qed.

Lemma no_ws_reverse s : no_ws s -> no_ws (reverse s).
Proof.
  unfold no_ws. rewrite !Forall_forall. intros H c Hc.
  apply H. by apply elem_of_reverse.
Qed.

Lemma lstrip_suffix s : lstrip s `suffix_of` s.
Proof.
  induction s as [|c s IH]; simpl; [done|].
  destruct (isspace c); [by apply suffix_cons_r | done].
Qed.

Lemma lstrip_starts s : starts_ws (lstrip s) = false.
Proof.
  induction s as [|c s IH]; simpl; [done|].
  destruct (isspace c) eqn:E; [done | simpl; by rewrite E].
Qed.

Lemma lstrip_id s : starts_ws s = false -> lstrip s = s.
Proof. destruct s as [|c s]; simpl; [done|]. by intros ->. Qed.

Lemma lstrip_no_ws s : no_ws s -> lstrip s = s.
Proof.
  intros H. apply lstrip_id. destruct s as [|c s]; [done|].
  by inversion H.
Qed.

Lemma rstrip_no_ws s : no_ws s -> rstrip s = s.
Proof.
  intros H. unfold rstrip.
  rewrite lstrip_no_ws by by apply no_ws_reverse.
  apply reverse_involutive.
Qed.

Lemma strip_no_ws s : no_ws s -> strip s = s.
Proof.
  intros H. unfold strip. rewrite rstrip_no_ws by done. by apply lstrip_no_ws.
Qed.

Lemma rstrip_ends s : ends_ws (rstrip s) = false.
Proof.
  unfold ends_ws, rstrip. rewrite reverse_involutive. apply lstrip_starts.
Qed.

Lemma ends_ws_suffix s t :
  t `suffix_of` s -> ends_ws s = false -> ends_ws t = false.
Proof.
  intros [k ->]. unfold ends_ws. rewrite reverse_app.
  destruct (reverse t) as [|c r]; [done|]. done.
Qed.

Lemma strip_trimmed s : trimmed (strip s).
Proof.
  split; [apply lstrip_starts|].
  eapply ends_ws_suffix; [apply lstrip_suffix | apply rstrip_ends].
Qed.

Lemma trimmed_strip_id s : trimmed s -> strip s = s.
Proof.
  intros [H1 H2]. unfold strip, rstrip.
  rewrite (lstrip_id (reverse s)) by done.
  rewrite reverse_involutive. by apply lstrip_id.
Qed.

Lemma nws_app s t : nws (s ++ t) = nws s ++ nws t.
Proof. apply filter_app. Qed.

Lemma nws_lstrip s : nws (lstrip s) = nws s.
Proof.
  induction s as [|c s IH]; [done|]. cbn [lstrip].
  destruct (isspace c) eqn:E; [|done].
  rewrite IH. unfold nws. rewrite (filter_cons_False _ c); [done|]. by rewrite E.
Qed.

Lemma nws_strip s : nws (strip s) = nws s.
Proof.
  unfold strip, rstrip. rewrite nws_lstrip. unfold nws.
  rewrite filter_reverse. fold (nws (reverse s)). rewrite nws_lstrip.
  unfold nws. rewrite filter_reverse. apply reverse_involutive.
Qed.

Lemma nws_no_ws s : no_ws s -> nws s = s.
Proof.
  induction 1 as [|c s Hc Hs IH]; [done|].
  unfold nws. rewrite filter_cons_True by done. f_equal. apply IH.
Qed.

Lemma no_ws_nws s : no_ws (nws s).
Proof.
  unfold no_ws, nws. apply Forall_forall. intros c Hc.
  by apply list_elem_of_filter in Hc as [? _].
Qed.

Lemma nws_idemp s : nws (nws s) = nws s.
Proof. apply nws_no_ws, no_ws_nws. Qed.

(** A string whose [strip] is empty has no non-whitespace character. *)
Lemma lstrip_nil_nws s : lstrip s = [] -> nws s = [].
Proof. intros H. rewrite <- nws_lstrip, H. done. Qed.

Lemma strip_nil_nws s : strip s = [] -> nws s = [].
Proof. intros H. rewrite <- nws_strip, H. done. Qed.

End StrFacts.

(** ** The loops of the chunker, read as functions of their inputs *)

Section ChunkerLoops.
Import Str Chunker.
Context (chunk_size overlap : Z).
Local Abbreviation run := (run chunk_size overlap).
Local Abbreviation segment := (segment chunk_size overlap).

Lemma foldl_pack_step current acc adds :
  (let '(cur', out) :=
     foldl (pack_step chunk_size overlap) (current, acc) adds in
   if bool_decide (strip cur' <> []) then out ++ [strip cur'] else out)
  = acc ++ run current adds.
Proof.
  revert current acc.
  induction adds as [|a adds IH]; intros current acc; simpl.
  - case_bool_decide; [done | by rewrite app_nil_r].
  - destruct (len current + len a <=? chunk_size); [apply IH|].
    rewrite IH. case_bool_decide; [by rewrite <- app_assoc | done].
Qed.

Lemma split_segment_segment sep acc c :
  split_segment chunk_size overlap sep acc c = acc ++ segment sep c.
Proof.
  unfold split_segment, segment.
  destruct (len c <=? chunk_size); [done|].
  apply foldl_pack_step.
Qed.

Lemma level_bind chunks sep :
  level chunk_size overlap chunks sep = chunks ≫= segment sep.
Proof.
  unfold level.
  enough (forall acc,
    foldl (fun new_chunks c =>
             split_segment chunk_size overlap sep new_chunks c) acc chunks
    = acc ++ (chunks ≫= segment sep)) as H by apply (H []).
  induction chunks as [|c chunks IH]; intros acc; simpl.
  - by rewrite app_nil_r.
  - rewrite IH, split_segment_segment. by rewrite <- app_assoc.
Qed.

(** [_chunk_text], with its loops replaced by the functions above. *)
Lemma chunk_text_unfold text :
  _chunk_text text chunk_size overlap =
  if bool_decide (text = []) || bool_decide (strip text = []) then []
  else filter (fun c => strip c <> [])
         (((([text] ≫= segment [NL; NL]) ≫= segment [NL])
                 ≫= segment [DOT; SP]) ≫= segment [SP]).
Proof.
  unfold _chunk_text, separators. simpl foldl.
  by rewrite !level_bind.
Qed.

(** An invariant [I] of [current] that every turn keeps, for parts that
    satisfy [A], makes every emitted chunk satisfy [P]. *)
Lemma run_Forall (I A P : list N -> Prop) :
  (forall cur add, I cur -> A add -> I (cur ++ add)) ->
  (forall cur add, I cur -> A add -> I (overlap_start overlap cur ++ add)) ->
  (forall cur, I cur -> P (strip cur)) ->
  forall adds current, I current -> Forall A adds -> Forall P (run current adds).
Proof.
  intros Happ Hseed Hemit.
  induction adds as [|a adds IH]; intros current HI HA; simpl.
  - case_bool_decide; [|done]. constructor; [by apply Hemit | done].
  - inversion HA as [|?? Ha HA']; subst.
    destruct (len current + len a <=? chunk_size).
    + apply IH; [by apply Happ | done].
    + apply Forall_app. split.
      * case_bool_decide; [|done]. constructor; [by apply Hemit | done].
      * apply IH; [by apply Hseed | done].
Qed.

End ChunkerLoops.

(** ** What the whitespace level emits *)

Section ChunkSize.
Import Str Chunker.

Lemma re_split_go_no_ws in_run cur s :
  no_ws cur -> Forall no_ws (re_split_go in_run cur s).
Proof.
  revert in_run cur. induction s as [|c s IH]; intros in_run cur Hcur; simpl.
  - by constructor.
  - destruct (isspace c) eqn:E.
    + destruct in_run; [by apply IH|].
      constructor; [done|]. apply IH. constructor.
    + apply IH. apply no_ws_app. split; [done|]. by repeat constructor.
Qed.

Lemma imap_id_ext {A} (f : nat -> A -> A) (l : list A) :
  (forall i x, f i x = x) -> imap f l = l.
Proof.
  revert f. induction l as [|x l IH]; intros f Hf; [done|].
  rewrite imap_cons, Hf. f_equal. apply IH. intros i y. apply Hf.
Qed.

Lemma adds_of_ws c : adds_of [SP] c = re_split_ws c.
Proof. unfold adds_of. simpl. by apply imap_id_ext. Qed.

Lemma overlap_start_suffix overlap current :
  overlap_start overlap current `suffix_of` current.
Proof.
  unfold overlap_start, last_chars.
  destruct (overlap <=? 0); [apply suffix_nil|].
  destruct (overlap <=? len current); [apply suffix_drop | done].
Qed.

Lemma no_ws_suffix s t : t `suffix_of` s -> no_ws s -> no_ws t.
Proof. intros [k ->] H. by apply no_ws_app in H as [_ ?]. Qed.

(** At the whitespace level a segment that is split yields only chunks
    without any whitespace. *)
Lemma run_ws_no_ws chunk_size overlap c :
  Forall no_ws (run chunk_size overlap [] (adds_of [SP] c)).
Proof.
  rewrite adds_of_ws.
  apply (run_Forall chunk_size overlap no_ws no_ws no_ws).
  - intros cur add ??. by apply no_ws_app.
  - intros cur add ??. apply no_ws_app. split; [|done].
    eapply no_ws_suffix; [apply overlap_start_suffix | done].
  - intros cur H. by rewrite strip_no_ws.
  - constructor.
  - apply re_split_go_no_ws. constructor.
Qed.

End ChunkSize.

(** ** Trimming *)

Section Trimming.
Import Str Chunker.
Context (chunk_size overlap : Z).

Lemma run_trimmed current adds :
  Forall trimmed (run chunk_size overlap current adds).
Proof.
  apply (run_Forall chunk_size overlap (fun _ => True) (fun _ => True));
    try done.
  - intros cur _. apply strip_trimmed.
  - by apply Forall_true.
Qed.

Lemma segment_trimmed sep c :
  trimmed c -> Forall trimmed (segment chunk_size overlap sep c).
Proof.
  intros Hc. unfold segment. destruct (len c <=? chunk_size).
  - by constructor.
  - apply run_trimmed.
Qed.

Lemma bind_segment_trimmed sep chunks :
  Forall trimmed chunks ->
  Forall trimmed (chunks ≫= segment chunk_size overlap sep).
Proof.
  intros H. apply Forall_bind. eapply Forall_impl; [exact H|].
  intros c Hc. by apply segment_trimmed.
Qed.

(** A segment that fits is kept as it is. *)
Lemma segment_fits sep c :
  len c <= chunk_size -> segment chunk_size overlap sep c = [c].
Proof.
  intros H. unfold segment.
  destruct (len c <=? chunk_size) eqn:E; [done | lia].
Qed.

(** A text that fits and is not blank is returned as the only chunk,
    unchanged. *)
Lemma chunk_text_fits text :
  len text <= chunk_size -> strip text <> [] ->
  _chunk_text text chunk_size overlap = [text].
Proof.
  intros Hlen Hne. rewrite chunk_text_unfold.
  assert (text <> []) as Hne' by (intros ->; done).
  rewrite !bool_decide_eq_false_2 by done. simpl orb. cbv iota.
  assert (forall sep, [text] ≫= segment chunk_size overlap sep = [text]) as E.
  { intros sep. rewrite bind_cons, segment_fits by done. done. }
  rewrite !E. rewrite filter_cons_True by done. done.
Qed.

(** A text longer than [chunk_size] yields trimmed chunks only. *)
Lemma chunk_text_split_trimmed text :
  chunk_size < len text ->
  Forall trimmed (_chunk_text text chunk_size overlap).
Proof.
  intros Hlen. rewrite chunk_text_unfold.
  destruct (bool_decide (text = []) || bool_decide (strip text = []));
    [done|].
  apply Forall_forall. intros c Hc.
  apply list_elem_of_filter in Hc as [_ Hc]. revert c Hc.
  apply Forall_forall. do 3 apply bind_segment_trimmed.
  rewrite bind_cons, app_nil_r. unfold segment.
  destruct (len text <=? chunk_size) eqn:E; [lia|]. apply run_trimmed.
Qed.

End Trimming.

(** C5, as stated, fails: a text that fits within [chunk_size] is returned
    unchanged, with its leading whitespace. *)
Lemma chunk_not_trimmed_counterexample :
  Chunker._chunk_text [Str.SP; 97%N] 1024 200 = [[Str.SP; 97%N]]
  /\ starts_ws [Str.SP; 97%N] = true.
Proof. split; reflexivity. Qed.

(** C5, amended. Every chunk returned by [_chunk_text] neither starts nor
    ends with a whitespace character, except when the whole text already
    fits within [chunk_size]: then the text is returned unchanged as the
    only chunk. *)
Theorem chunk_trimmed_unless_text_fits text chunk_size overlap :
  Forall trimmed (Chunker._chunk_text text chunk_size overlap)
  \/ (Str.len text <= chunk_size
      /\ Chunker._chunk_text text chunk_size overlap = [text]).
Proof.
  destruct (Z.le_gt_cases (Str.len text) chunk_size) as [Hle|Hgt].
  - destruct (decide (Str.strip text = [])) as [Hblank|Hne].
    + left. unfold Chunker._chunk_text.
      rewrite (bool_decide_eq_true_2 (Str.strip text = [])) by done.
      rewrite orb_true_r. constructor.
    + right. split; [done|]. by apply chunk_text_fits.
  - left. by apply chunk_text_split_trimmed.
Qed.

(** C3. At the whitespace level the parts of a segment are joined with
    nothing between them: the words of ["aaa bbb ccc"] packed into
    segments of at most 8 characters come out as ["aaabbb"] and ["ccc"],
    not as ["aaa bbb"] and ["ccc"]. *)
Theorem whitespace_level_joins_parts_directly :
  Chunker.split_segment 8 0 [Str.SP] [] (Str.lit "aaa bbb ccc")
    = [Str.lit "aaabbb"; Str.lit "ccc"]
  /\ Chunker._chunk_text (Str.lit "aaa bbb ccc") 8 0
    = [Str.lit "aaabbb"; Str.lit "ccc"].
Proof. split; reflexivity. Qed.

(** ** Segments in which the separator does not occur *)

Section NoOccurrence.
Import Str Chunker.
Context (chunk_size overlap : Z).

Lemma split_go_no_occurrence sep cur s :
  contains sep s = false -> split_go sep 0 cur s = [cur ++ s].
Proof.
  revert cur. induction s as [|c s IH]; intros cur H.
  - by rewrite app_nil_r.
  - cbn [contains] in H. apply orb_false_iff in H as [H1 H2].
    cbn [split_go]. rewrite H1, IH by done. by rewrite <- app_assoc.
Qed.

Lemma split_no_occurrence sep s : contains sep s = false -> split sep s = [s].
Proof. apply split_go_no_occurrence. Qed.

Lemma overlap_start_nil : overlap_start overlap [] = [].
Proof.
  unfold overlap_start. destruct (overlap <=? 0) eqn:E; [done|].
  destruct (overlap <=? len []); done.
Qed.

(** A segment that is too long and has no occurrence of the separator
    stays whole: only its ends are stripped. *)
Lemma segment_no_occurrence sep c :
  sep <> [SP] -> contains sep c = false ->
  chunk_size < len c -> strip c <> [] ->
  segment chunk_size overlap sep c = [strip c].
Proof.
  intros Hsep Hocc Hlen Hne. unfold segment, adds_of.
  destruct (len c <=? chunk_size) eqn:E; [lia|].
  rewrite bool_decide_eq_true_2 by done.
  rewrite split_no_occurrence by done.
  cbn [imap length]. unfold add_of at 1.
  rewrite bool_decide_eq_false_2 by done.
  cbn [Z.ltb Z.of_nat Z.sub Z.add Z.opp Z.compare Z.pos_sub].
  rewrite app_nil_r. cbn [run].
  replace (len [] + len c <=? chunk_size) with false
    by (symmetry; apply Z.leb_gt; unfold len at 1; simpl; lia).
  rewrite bool_decide_eq_false_2 by (intros H; by apply H).
  rewrite overlap_start_nil. cbn [app].
  by rewrite bool_decide_eq_true_2.
Qed.

End NoOccurrence.

(** ** Coverage: the chunks hold the text, whitespace and overlap apart *)

Section Coverage.
Import Str Chunker.
Context (chunk_size overlap : Z).
Local Abbreviation body_of := (body_of overlap).
Local Abbreviation covers := (covers overlap).

Lemma join_cons sep p rest :
  rest <> [] -> join sep (p :: rest) = p ++ sep ++ join sep rest.
Proof. by destruct rest. Qed.

Lemma split_go_nonempty sep skip cur s : split_go sep skip cur s <> [].
Proof.
  revert skip cur. induction s as [|c s IH]; intros skip cur; simpl; [done|].
  destruct skip; [|apply IH]. destruct (startswith sep (c :: s)); [done|].
  apply IH.
Qed.

Lemma split_go_skip sep skip cur s :
  split_go sep skip cur s = split_go sep 0 cur (drop skip s).
Proof.
  revert skip. induction s as [|c s IH]; intros [|k]; try done.
  cbn [split_go drop]. apply IH.
Qed.

Lemma startswith_drop p s :
  startswith p s = true -> s = p ++ drop (length p) s.
Proof.
  revert s. induction p as [|a p IH]; intros [|b s] H; simpl in *; try done.
  apply andb_true_iff in H as [Hab Hps].
  apply bool_decide_eq_true in Hab as ->. f_equal. by apply IH.
Qed.

(** Splitting on a separator and joining with it gives the string back. *)
Lemma join_split_go sep n :
  sep <> [] ->
  forall s cur, (length s <= n)%nat ->
    join sep (split_go sep 0 cur s) = cur ++ s.
Proof.
  intros Hsep. induction n as [|n IH]; intros s cur Hn.
  - destruct s; [|simpl in Hn; lia]. simpl. by rewrite app_nil_r.
  - destruct s as [|c s]; [simpl; by rewrite app_nil_r|].
    cbn [split_go]. destruct (startswith sep (c :: s)) eqn:E.
    + rewrite join_cons by apply split_go_nonempty.
      rewrite split_go_skip, IH.
      * pose proof (startswith_drop _ _ E) as E'.
        destruct sep as [|a sep]; [done|].
        cbn [length drop] in E'. rewrite E'.
        cbn [length app]. by rewrite Nat.sub_1_r.
      * rewrite length_drop. simpl in Hn. lia.
    + rewrite IH by (simpl in Hn; lia). by rewrite <- app_assoc.
Qed.

Lemma join_split sep s : sep <> [] -> join sep (split sep s) = s.
Proof. intros H. by apply (join_split_go sep (length s)). Qed.

(** The [add]s of the parts, one after the other, are the parts joined by
    the separator. *)
Lemma concat_adds sep parts k n :
  sep <> [SP] -> n = (k + length parts)%nat ->
  concat (imap (fun i => add_of sep n (k + i)) parts) = join sep parts.
Proof.
  intros Hsep. revert k.
  induction parts as [|p rest IH]; intros k Hn; [done|].
  rewrite imap_cons. cbn [concat].
  rewrite (imap_ext _ (fun i => add_of sep n (S k + i))).
  2: { intros i x _. simpl. f_equal. lia. }
  rewrite IH by (simpl in Hn; lia).
  unfold add_of. rewrite bool_decide_eq_false_2 by done.
  destruct rest as [|q rest].
  - replace (Z.of_nat (k + 0) <? Z.of_nat n - 1) with false
      by (symmetry; apply Z.ltb_ge; simpl in Hn; lia).
    simpl. by rewrite !app_nil_r.
  - replace (Z.of_nat (k + 0) <? Z.of_nat n - 1) with true
      by (symmetry; apply Z.ltb_lt; simpl in Hn; lia).
    rewrite (join_cons sep p (q :: rest)) by done. by rewrite <- !app_assoc.
Qed.

Lemma concat_re_split_go in_run cur s :
  concat (re_split_go in_run cur s) = cur ++ nws s.
Proof.
  revert in_run cur. induction s as [|c s IH]; intros in_run cur.
  - reflexivity.
  - cbn [re_split_go]. unfold nws. destruct (isspace c) eqn:E.
    + rewrite (filter_cons_False _ c) by by rewrite E.
      destruct in_run; [apply IH|]. cbn [concat]. by rewrite IH.
    + rewrite (filter_cons_True _ c) by done.
      rewrite IH. by rewrite <- app_assoc.
Qed.

(** Nothing but whitespace is lost between a segment and its [add]s. *)
Lemma nws_concat_adds_of sep c :
  sep <> [] -> nws (concat (adds_of sep c)) = nws c.
Proof.
  intros Hsep. destruct (decide (sep = [SP])) as [->|Hsp].
  - rewrite adds_of_ws. unfold re_split_ws.
    rewrite concat_re_split_go. apply nws_idemp.
  - unfold adds_of. rewrite bool_decide_eq_true_2 by done.
    rewrite (imap_ext _ (fun i => add_of sep (length (split sep c)) (0 + i)))
      by done.
    rewrite concat_adds by done. by rewrite join_split.
Qed.

Lemma body_of_strip c b : body_of c b -> body_of (strip c) b.
Proof. intros (d & H & Hd). exists d. by rewrite nws_strip. Qed.

Lemma body_of_blank c b : strip c = [] -> body_of c b -> b = [].
Proof.
  intros Hc (d & H & _). rewrite (strip_nil_nws c Hc) in H.
  symmetry in H. by apply app_eq_nil in H as [_ ?].
Qed.

(** The loop over the parts: the chunks it emits cover what it was given. *)
Lemma run_bodies adds :
  forall current g, body_of current g ->
  exists bodies,
    Forall2 body_of (run chunk_size overlap current adds) bodies
    /\ concat bodies = g ++ nws (concat adds).
Proof.
  induction adds as [|a adds IH]; intros current g Hg; cbn [run concat].
  - rewrite app_nil_r. case_bool_decide as Hne.
    + exists [g]. split; [|simpl; by rewrite app_nil_r].
      constructor; [by apply body_of_strip | constructor].
    + exists []. split; [constructor|].
      simpl. symmetry. by eapply body_of_blank.
  - rewrite nws_app. destruct (len current + len a <=? chunk_size).
    + destruct (IH (current ++ a) (g ++ nws a)) as (bs & HF & Hc).
      { destruct Hg as (d & H & Hd). exists d.
        rewrite nws_app, H. by rewrite <- app_assoc. }
      exists bs. split; [done|]. by rewrite Hc, <- app_assoc.
    + destruct (IH (overlap_start overlap current ++ a) (nws a))
        as (bs & HF & Hc).
      { exists (nws (overlap_start overlap current)).
        split; [apply nws_app|]. intros Hov. unfold overlap_start.
        by replace (overlap <=? 0) with true by (symmetry; by apply Z.leb_le). }
      case_bool_decide as Hne.
      * exists (g :: bs). split.
        -- constructor; [by apply body_of_strip | done].
        -- simpl. by rewrite Hc.
      * subst current.
        exists bs. split; [done|]. rewrite Hc.
        by rewrite (body_of_blank [] g).
Qed.

(** Bodies that together hold more than [b] can be cut down to [b]. *)
Lemma bodies_cut chunks fs :
  Forall2 body_of chunks fs ->
  forall d b, concat fs = d ++ b -> (overlap <= 0 -> d = []) ->
  exists bs, Forall2 body_of chunks bs /\ concat bs = b.
Proof.
  induction 1 as [|c f chunks fs Hcf HF IH]; intros d b Hcat Hd.
  - exists []. split; [constructor|]. simpl in Hcat.
    symmetry in Hcat. apply app_eq_nil in Hcat as [_ ->]. done.
  - cbn [concat] in Hcat. destruct Hcf as (e & He & Hov).
    apply List.app_eq_app in Hcat as (l & [[Hf Hb]|[Hf Hb]]).
    + exists (l :: fs). split; [|by rewrite Hb].
      constructor; [|done]. exists (e ++ d). split.
      * by rewrite He, Hf, app_assoc.
      * intros H0. by rewrite Hov, Hd.
    + destruct (IH l b Hb) as (bs & HF' & Hbs).
      { intros H0. rewrite (Hd H0) in Hf.
        symmetry in Hf. by apply app_eq_nil in Hf as [_ ?]. }
      exists ([] :: bs). split; [|done].
      constructor; [|done]. exists (nws c). split; [by rewrite app_nil_r|].
      intros H0. rewrite (Hd H0) in Hf.
      symmetry in Hf. apply app_eq_nil in Hf as [-> _].
      by rewrite He, Hov.
Qed.

Lemma segment_bodies sep c b :
  sep <> [] -> body_of c b ->
  exists bs,
    Forall2 body_of (segment chunk_size overlap sep c) bs /\ concat bs = b.
Proof.
  intros Hsep Hb. unfold segment. destruct (len c <=? chunk_size).
  - exists [b]. split; [by repeat constructor | simpl; by rewrite app_nil_r].
  - destruct (run_bodies (adds_of sep c) [] []) as (fs & HF & Hc).
    { by exists []. }
    rewrite nws_concat_adds_of in Hc by done. cbn [app] in Hc.
    destruct Hb as (d & Hd & Hov). rewrite Hd in Hc.
    by apply (bodies_cut _ fs HF d b).
Qed.

Lemma bind_segment_bodies sep chunks bodies :
  sep <> [] -> Forall2 body_of chunks bodies ->
  exists bs,
    Forall2 body_of (chunks ≫= segment chunk_size overlap sep) bs
    /\ concat bs = concat bodies.
Proof.
  intros Hsep. induction 1 as [|c b chunks bodies Hcb HF IH].
  - exists []. split; [constructor | done].
  - destruct IH as (bs & HF' & Hbs).
    destruct (segment_bodies sep c b Hsep Hcb) as (bs0 & HF0 & Hb0).
    exists (bs0 ++ bs). rewrite bind_cons. split.
    + by apply Forall2_app.
    + rewrite concat_app, Hb0, Hbs. done.
Qed.

Lemma filter_bodies chunks bodies :
  Forall2 body_of chunks bodies ->
  exists bs,
    Forall2 body_of (filter (fun c => strip c <> []) chunks) bs
    /\ concat bs = concat bodies.
Proof.
  induction 1 as [|c b chunks bodies Hcb HF IH].
  - exists []. split; [constructor | done].
  - destruct IH as (bs & HF' & Hbs).
    destruct (decide (strip c = [])) as [Hblank|Hne].
    + rewrite filter_cons_False by (intros H; by apply H).
      exists bs. split; [done|].
      by rewrite (body_of_blank c b Hblank Hcb).
    + rewrite filter_cons_True by done.
      exists (b :: bs). split; [by constructor|]. simpl. by rewrite Hbs.
Qed.

End Coverage.

(** ** Ingestion: identifiers, the batch insert and its sequences *)

Section IngestFacts.
Import Str Chunker Ingest.
Context (CHUNK_SIZE CHUNK_OVERLAP : Z).
Local Abbreviation unit_chunks := (unit_chunks CHUNK_SIZE CHUNK_OVERLAP).
Local Abbreviation file_records := (file_records CHUNK_SIZE CHUNK_OVERLAP).
Local Abbreviation batch_records := (batch_records CHUNK_SIZE CHUNK_OVERLAP).

Lemma extends_refl a : extends a a [].
Proof. unfold extends. simpl. by rewrite !app_nil_r. Qed.

Lemma extends_add_error a msg : extends a (add_error a msg) [].
Proof. unfold extends. simpl. by rewrite !app_nil_r. Qed.

Create HintDb ingest.
#[local] Hint Resolve extends_refl extends_add_error : ingest.

Lemma extends_trans a b c rs1 rs2 :
  extends a b rs1 -> extends b c rs2 -> extends a c (rs1 ++ rs2).
Proof.
  intros (H1 & H2 & H3) (H4 & H5 & H6). unfold extends.
  rewrite H4, H5, H6, H1, H2, H3, !fmap_app, <- !app_assoc. done.
Qed.

Lemma numbered_cons doc_id start c m rest :
  numbered doc_id start ((c, m) :: rest)
  = (doc_id start, c, m) :: numbered doc_id (start + 1)%N rest.
Proof.
  unfold numbered. rewrite imap_cons. f_equal.
  - do 3 f_equal. simpl. lia.
  - apply imap_ext. intros i [c' m'] _. simpl. do 3 f_equal. lia.
Qed.

Lemma numbered_app doc_id start l1 l2 :
  numbered doc_id start (l1 ++ l2)
  = numbered doc_id start l1
    ++ numbered doc_id (start + N.of_nat (length l1))%N l2.
Proof.
  revert start. induction l1 as [|[c m] l1 IH]; intros start.
  - simpl. by rewrite N.add_0_r.
  - cbn [app]. rewrite !numbered_cons, IH. cbn [app length].
    do 3 f_equal. lia.
Qed.

(** The loop over the chunks of one text unit. *)
Lemma foldl_append_chunk doc_id meta chunks :
  forall a idx,
  exists a',
    foldl (append_chunk doc_id meta) (a, idx) chunks
    = (a', (idx + N.of_nat (length chunks))%N)
    /\ errors a' = errors a
    /\ extends a a'
         (numbered doc_id idx ((fun chunk => (chunk, meta)) <$> chunks)).
Proof.
  induction chunks as [|c chunks IH]; intros a idx.
  - exists a. split; [simpl; f_equal; lia|]. split; [done|].
    apply extends_refl.
  - cbn [foldl append_chunk].
    destruct (IH {| errors := errors a;
                    all_ids := all_ids a ++ [doc_id idx];
                    all_chunks := all_chunks a ++ [c];
                    all_metadatas := all_metadatas a ++ [meta] |}
                 (idx + 1)%N) as (a' & Hf & He & Hx).
    exists a'. split; [rewrite Hf; f_equal; simpl; lia|]. split; [done|].
    rewrite fmap_cons, numbered_cons.
    eapply (extends_trans _ _ _ [(doc_id idx, c, meta)] _); [|exact Hx].
    by unfold extends.
Qed.

(** The loop over the text units of one document. *)
Lemma foldl_items doc_id f items :
  forall a idx,
  exists a' idx',
    foldl (fun st '(text, meta) =>
             foldl (append_chunk doc_id (f meta)) st
                   (_chunk_text text CHUNK_SIZE CHUNK_OVERLAP))
          (a, idx) items = (a', idx')
    /\ errors a' = errors a
    /\ extends a a' (numbered doc_id idx (unit_chunks f items)).
Proof.
  induction items as [|[text meta] items IH]; intros a idx.
  - exists a, idx. split; [done|]. split; [done|]. apply extends_refl.
  - cbn [foldl].
    destruct (foldl_append_chunk doc_id (f meta)
                (_chunk_text text CHUNK_SIZE CHUNK_OVERLAP) a idx)
      as (a1 & Hf1 & He1 & Hx1).
    rewrite Hf1.
    destruct (IH a1 (idx + N.of_nat
                (length (_chunk_text text CHUNK_SIZE CHUNK_OVERLAP)))%N)
      as (a2 & idx2 & Hf2 & He2 & Hx2).
    exists a2, idx2. split; [done|]. split; [congruence|].
    unfold unit_chunks. rewrite bind_cons, numbered_app, length_fmap.
    by eapply extends_trans.
Qed.

Lemma add_file_extends file_path a a' :
  add_file CHUNK_SIZE CHUNK_OVERLAP file_path a = returned a' ->
  extends a a' (file_records file_path).
Proof.
  unfold add_file, file_records.
  destruct (load_document file_path) as [e|[|item items]]; [done| |].
  - case_bool_decide; intros [= <-]; auto with ingest.
  - intros [= <-].
    destruct (foldl_items (path_doc_id (p_stem file_path)) id
                (item :: items) a 0%N) as (a1 & idx1 & Hf & _ & Hx).
    unfold id in Hf at 1. cbn [foldl] in Hf. rewrite Hf. done.
Qed.

Lemma for_each_files_extends (cond : path_info -> bool) files :
  forall a a',
  for_each (fun f a => if cond f then add_file CHUNK_SIZE CHUNK_OVERLAP f a
                       else returned a) files a = returned a' ->
  extends a a' (List.filter cond files ≫= file_records).
Proof.
  induction files as [|f files IH]; intros a a'; cbn [for_each List.filter].
  - intros [= <-]. apply extends_refl.
  - destruct (cond f).
    + destruct (add_file _ _ f a) as [e|a1] eqn:E; [done|].
      intros H. rewrite bind_cons.
      eapply extends_trans; [by apply add_file_extends | by apply IH].
    + by apply IH.
Qed.

Lemma visit_path_extends rp a a' :
  visit_path CHUNK_SIZE CHUNK_OVERLAP rp a = returned a' ->
  extends a a' (files_of rp ≫= file_records).
Proof.
  unfold visit_path, files_of. destruct (p_exists (r_path rp)); cbn [negb].
  - destruct (p_is_file (r_path rp)).
    + intros H. rewrite bind_cons. cbn [mbind list_bind]. rewrite app_nil_r.
      by apply add_file_extends.
    + apply for_each_files_extends.
  - intros [= <-]. auto with ingest.
Qed.

Lemma for_each_paths_extends paths :
  forall a a',
  for_each (visit_path CHUNK_SIZE CHUNK_OVERLAP) paths a = returned a' ->
  extends a a' ((paths ≫= files_of) ≫= file_records).
Proof.
  induction paths as [|rp paths IH]; intros a a'; cbn [for_each].
  - intros [= <-]. apply extends_refl.
  - destruct (visit_path _ _ rp a) as [e|a1] eqn:E; [done|].
    intros H. rewrite bind_cons, bind_app.
    eapply extends_trans; [by apply visit_path_extends | by apply IH].
Qed.

Lemma accumulate_paths_records paths a :
  accumulate_paths CHUNK_SIZE CHUNK_OVERLAP paths = returned a ->
  extends empty_acc a (batch_records paths).
Proof. apply for_each_paths_extends. Qed.

End IngestFacts.

Section UploadFacts.
Import Str Chunker Ingest.
Context (CHUNK_SIZE CHUNK_OVERLAP : Z).
Context (temp_file : list N -> bytes_obj -> path_info).
Context (stem_of : list N -> list N).
Local Abbreviation upload_records :=
  (upload_records CHUNK_SIZE CHUNK_OVERLAP temp_file stem_of).
Local Abbreviation upload_batch_records :=
  (upload_batch_records CHUNK_SIZE CHUNK_OVERLAP temp_file stem_of).

Lemma ingest_upload_extends a item :
  extends a
    (ingest_upload CHUNK_SIZE CHUNK_OVERLAP temp_file stem_of a item)
    (upload_records item).
Proof.
  destruct item as [[[name raw] ext] display_name].
  unfold ingest_upload, upload_records.
  destruct (load_document _) as [e|[|item items]].
  - apply extends_add_error.
  - apply extends_add_error.
  - destruct (foldl_items CHUNK_SIZE CHUNK_OVERLAP
                (memory_doc_id (stem_of display_name) raw)
                (fun meta => <[ "source" := VStr display_name ]> meta)
                (item :: items) a 0%N) as (a1 & idx1 & Hf & _ & Hx).
    cbn beta in Hf. rewrite Hf. done.
Qed.

Lemma foldl_uploads_extends items :
  forall a,
  extends a
    (foldl (ingest_upload CHUNK_SIZE CHUNK_OVERLAP temp_file stem_of) a items)
    (items ≫= upload_records).
Proof.
  induction items as [|item items IH]; intros a; cbn [foldl].
  - apply extends_refl.
  - rewrite bind_cons.
    eapply extends_trans; [apply ingest_upload_extends | apply IH].
Qed.

Lemma accumulate_uploads_records file_contents filenames :
  extends empty_acc
    (accumulate_uploads CHUNK_SIZE CHUNK_OVERLAP temp_file stem_of
       file_contents filenames)
    (upload_batch_records file_contents filenames).
Proof. apply foldl_uploads_extends. Qed.

Lemma extends_empty a rs :
  extends empty_acc a rs ->
  all_ids a = record_id <$> rs
  /\ all_chunks a = record_chunk <$> rs
  /\ all_metadatas a = record_meta <$> rs.
Proof. by intros (? & ? & ?). Qed.

End UploadFacts.

(** C6. Two files of one batch with the same base name get the same
    identifiers: [ingest_paths] on [/docs/a.txt] and [/docs/a.md], each of
    one chunk, hands the identifier ["a_0"] to the batch insert twice. *)
Theorem ingest_paths_same_stem_same_ids :
  Ingest.ingest_paths 1024 200
    [ {| Ingest.r_path := file_a ".txt"; Ingest.r_rglob := [] |};
      {| Ingest.r_path := file_a ".md"; Ingest.r_rglob := [] |} ]
  = ([Ingest.GetOrCreateCollection;
      Ingest.Add [Str.lit "a_0"; Str.lit "a_0"] [Str.lit "x"; Str.lit "x"]
        [ {[ "source" := Ingest.VStr (Str.lit "a.txt") ]};
          {[ "source" := Ingest.VStr (Str.lit "a.md") ]} ]],
     inr (2, [])).
Proof. vm_compute. reflexivity. Qed.

(** C7. [ingest_paths] does not catch what the loader raises.  On
    [/docs/a.txt] alone it accumulates one chunk and makes one batch
    insert; on [/docs/a.txt] followed by a PDF that the reader refuses, the
    same chunk is accumulated, the exception leaves the function and no
    batch insert is made; on the refused PDF alone it raises instead of
    returning [(0, errors)].  [ingest_files_in_memory], given the same two
    documents as uploads, records the failure as an error, inserts the
    chunk and returns. *)
Theorem ingest_paths_loader_failure_drops_batch :
  Ingest.ingest_paths 1024 200
    [ {| Ingest.r_path := text_file "a" ".txt" "x"; Ingest.r_rglob := [] |} ]
  = ([Ingest.GetOrCreateCollection;
      Ingest.Add [Str.lit "a_0"] [Str.lit "x"]
        [ {[ "source" := Ingest.VStr (Str.lit "a.txt") ]} ]],
     inr (1, []))
  /\ Ingest.ingest_paths 1024 200
       [ {| Ingest.r_path := text_file "a" ".txt" "x"; Ingest.r_rglob := [] |};
         {| Ingest.r_path := unreadable_pdf "bad" "EOF marker not found";
            Ingest.r_rglob := [] |} ]
     = ([Ingest.GetOrCreateCollection],
        inl (Str.lit "EOF marker not found"))
  /\ Ingest.ingest_paths 1024 200
       [ {| Ingest.r_path := unreadable_pdf "bad" "EOF marker not found";
            Ingest.r_rglob := [] |} ]
     = ([Ingest.GetOrCreateCollection],
        inl (Str.lit "EOF marker not found"))
  /\ Ingest.ingest_files_in_memory 1024 200 upload_as_file stem_of_name
       [ (Str.lit "a.txt",
          {| Ingest.obj_id := 1; Ingest.obj_data := Str.lit "x" |},
          Str.lit ".txt");
         (Str.lit "bad.pdf",
          {| Ingest.obj_id := 2; Ingest.obj_data := Str.lit "junk" |},
          Str.lit ".pdf") ]
       [Str.lit "a.txt"; Str.lit "bad.pdf"]
     = ([Ingest.GetOrCreateCollection;
         Ingest.Add [Str.lit "a_0_1"] [Str.lit "x"]
           [ {[ "source" := Ingest.VStr (Str.lit "a.txt") ]} ]],
        (1, [Str.lit "bad.pdf: EOF marker not found"])).
Proof. repeat split; vm_compute; reflexivity. Qed.


(** The only [Add] of a trace [[GetOrCreateCollection; Add ...]] or
    [[GetOrCreateCollection]]: find which call [Hin] speaks of. *)
Ltac the_insert Hin :=
  apply elem_of_cons in Hin as [Hin|Hin]; [discriminate Hin|];
  first
    [ by inversion Hin
    | apply elem_of_cons in Hin as [Hin|Hin];
      [injection Hin as -> -> -> | by inversion Hin] ].

(** C10. Whenever an ingestion invocation makes a batch insert, the ids,
    documents and metadatas it passes are the three projections of one
    list of records, each record being the identifier, the text and the
    unit metadata of one chunk of one text unit; so the three sequences
    have the same length and agree position by position, and the number of
    chunks returned is that length. *)
Theorem insert_sequences_aligned
    (CHUNK_SIZE CHUNK_OVERLAP : Z)
    (temp_file : list N -> Ingest.bytes_obj -> Ingest.path_info)
    (stem_of : list N -> list N) :
  (forall paths trace n errs ids docs metas,
     Ingest.ingest_paths CHUNK_SIZE CHUNK_OVERLAP paths
       = (trace, inr (n, errs)) ->
     Ingest.Add ids docs metas ∈ trace ->
     let rs := batch_records CHUNK_SIZE CHUNK_OVERLAP paths in
     (ids = record_id <$> rs /\ docs = record_chunk <$> rs
      /\ metas = record_meta <$> rs)
     /\ length ids = length docs /\ length docs = length metas
     /\ n = Str.len ids)
  /\ (forall file_contents filenames trace n errs ids docs metas,
        Ingest.ingest_files_in_memory CHUNK_SIZE CHUNK_OVERLAP
          temp_file stem_of file_contents filenames = (trace, (n, errs)) ->
        Ingest.Add ids docs metas ∈ trace ->
        let rs :=
          upload_batch_records CHUNK_SIZE CHUNK_OVERLAP temp_file stem_of
            file_contents filenames in
        (ids = record_id <$> rs /\ docs = record_chunk <$> rs
         /\ metas = record_meta <$> rs)
        /\ length ids = length docs /\ length docs = length metas
        /\ n = Str.len ids).
Proof.
  split.
  - intros paths trace n errs ids docs metas Hrun Hin rs.
    unfold Ingest.ingest_paths in Hrun.
    destruct (Ingest.accumulate_paths _ _ paths) as [e|a] eqn:Hacc; [done|].
    apply accumulate_paths_records, extends_empty in Hacc
      as (Hi & Hc & Hm).
    case_bool_decide; inversion Hrun; subst trace; clear Hrun;
      the_insert Hin.
    fold rs in Hi, Hc, Hm.
    rewrite Hi, Hc, Hm. unfold Str.len. rewrite !length_fmap. done.
  - intros file_contents filenames trace n errs ids docs metas Hrun Hin rs.
    unfold Ingest.ingest_files_in_memory in Hrun.
    pose proof (accumulate_uploads_records CHUNK_SIZE CHUNK_OVERLAP
                  temp_file stem_of file_contents filenames) as Hacc.
    apply extends_empty in Hacc as (Hi & Hc & Hm).
    case_bool_decide; inversion Hrun; subst trace; clear Hrun;
      the_insert Hin.
    fold rs in Hi, Hc, Hm.
    rewrite Hi, Hc, Hm. unfold Str.len. rewrite !length_fmap. done.
Qed.

(** C10 at the batch of [/docs/a.txt] and [/docs/a.md]. *)
Lemma insert_sequences_aligned_witness :
  let rs :=
    batch_records 1024 200
      [ {| Ingest.r_path := file_a ".txt"; Ingest.r_rglob := [] |};
        {| Ingest.r_path := file_a ".md"; Ingest.r_rglob := [] |} ] in
  ([Str.lit "a_0"; Str.lit "a_0"] = record_id <$> rs
   /\ [Str.lit "x"; Str.lit "x"] = record_chunk <$> rs
   /\ [ {[ "source" := Ingest.VStr (Str.lit "a.txt") ]};
        {[ "source" := Ingest.VStr (Str.lit "a.md") ]} ]
      = record_meta <$> rs)
  /\ length [Str.lit "a_0"; Str.lit "a_0"]
     = length [Str.lit "x"; Str.lit "x"]
  /\ length [Str.lit "x"; Str.lit "x"]
     = length [ ({[ "source" := Ingest.VStr (Str.lit "a.txt") ]}
                 : gmap string Ingest.value);
                {[ "source" := Ingest.VStr (Str.lit "a.md") ]} ]
  /\ 2 = Str.len [Str.lit "a_0"; Str.lit "a_0"].
Proof.
  apply (proj1 (insert_sequences_aligned 1024 200
                  (fun _ _ => file_a ".txt") (fun name => name))
           _ [Ingest.GetOrCreateCollection;
              Ingest.Add [Str.lit "a_0"; Str.lit "a_0"]
                [Str.lit "x"; Str.lit "x"]
                [ {[ "source" := Ingest.VStr (Str.lit "a.txt") ]};
                  {[ "source" := Ingest.VStr (Str.lit "a.md") ]} ]]
           2 []).
  - vm_compute. reflexivity.
  - apply list_elem_of_further, list_elem_of_here.
Defined.

(** ** Retrieval and the fallback prompt *)

Section RagFacts.
Import Str Ingest Rag.

Lemma startswith_refl_app p t : startswith p (p ++ t) = true.
Proof.
  induction p as [|a p IH]; simpl; [done|].
  by rewrite bool_decide_eq_true_2, IH.
Qed.

Lemma startswith_app_l p s t :
  startswith p s = true -> startswith p (s ++ t) = true.
Proof.
  revert s. induction p as [|a p IH]; intros [|b s] H; simpl in *; try done.
  apply andb_true_iff in H as [-> H]. by rewrite IH.
Qed.

Lemma contains_app_l p s t : contains p s = true -> contains p (s ++ t) = true.
Proof.
  induction s as [|b s IH]; intros H; cbn [contains] in H.
  - rewrite orb_false_r in H. destruct p; [by destruct t|done].
  - cbn [app contains]. apply orb_true_iff in H as [H|H].
    + pose proof (startswith_app_l _ _ t H) as H'. cbn [app] in H'.
      by rewrite H'.
    + rewrite IH by done. apply orb_true_r.
Qed.

Lemma endswith_refl p : endswith p p = true.
Proof.
  unfold endswith. rewrite <- (app_nil_r (reverse p)) at 2.
  apply startswith_refl_app.
Qed.

Lemma endswith_app_r p s t : endswith p t = true -> endswith p (s ++ t) = true.
Proof.
  unfold endswith. rewrite reverse_app. apply startswith_app_l.
Qed.

End RagFacts.

(** C8. When the store is empty [retrieve] returns the empty list and only
    asks for the count; otherwise it makes one query, for
    [min(top_k, count)] results, and returns the texts, metadatas and
    distances of the answer zipped in the order of the answer. *)
Theorem retrieve_asks_only_nonempty_store
    {dist : Type} (zero : dist) (coll : Rag.collection)
    (question : list N) (top_k : Z) :
  (Rag.count coll = 0 ->
   Rag.retrieve zero coll question top_k = ([Rag.Count], []))
  /\ (0 < Rag.count coll ->
      let n_results := Z.min top_k (Rag.count coll) in
      let answer := Rag.query coll [question] n_results in
      exists triples,
        Rag.retrieve zero coll question top_k
        = ([Rag.Count; Rag.Count; Rag.Query [question] n_results], triples)
        /\ forall docs metas dists,
             Rag.documents answer = Some docs ->
             Rag.metadatas answer = Some metas ->
             Rag.distances answer = Some dists ->
             triples = zip (zip docs metas) dists).
Proof.
  unfold Rag.retrieve. split.
  - intros ->. done.
  - intros Hpos.
    replace (Rag.count coll =? 0) with false by (symmetry; apply Z.eqb_neq; lia).
    eexists. split; [reflexivity|].
    intros docs metas dists Hd Hm Hdist. by rewrite Hd, Hm, Hdist.
Qed.

(** C9. For every question [q], [build_prompt(q, [])] contains
    ["general knowledge"] and ends with ["Question: "] followed by [q]. *)
Theorem build_prompt_fallback {dist : Type} (q : list N) :
  Str.contains (Str.lit "general knowledge")
    (Rag.build_prompt (dist := dist) q []) = true
  /\ Str.endswith (Str.lit "Question: " ++ q)
       (Rag.build_prompt (dist := dist) q []) = true.
Proof.
  unfold Rag.build_prompt. split.
  - apply contains_app_l. vm_compute. reflexivity.
  - do 3 apply endswith_app_r. apply endswith_refl.
Qed.

(** ** Chunks are pieces of the text *)

Section ChunkPieces.
Import Str Chunker.
Context (chunk_size overlap : Z).

Lemma piece_of_refl s : piece_of s s.
Proof. exists [], []. by rewrite app_nil_r. Qed.

Lemma piece_of_trans u v w : piece_of u v -> piece_of v w -> piece_of u w.
Proof.
  intros (a & b & ->) (a' & b' & ->). exists (a' ++ a), (b ++ b').
  by rewrite <- !app_assoc.
Qed.

Lemma suffix_piece_of u v : u `suffix_of` v -> piece_of u v.
Proof. intros [k ->]. exists k, []. by rewrite app_nil_r. Qed.

Lemma piece_of_app_r u v k : piece_of u v -> piece_of u (v ++ k).
Proof.
  intros (a & b & ->). exists a, (b ++ k). by rewrite <- !app_assoc.
Qed.

Lemma rstrip_prefix s : rstrip s `prefix_of` s.
Proof.
  unfold rstrip. destruct (lstrip_suffix (reverse s)) as [k Hk].
  exists (reverse k). apply (f_equal reverse) in Hk.
  by rewrite reverse_involutive, reverse_app in Hk.
Qed.

Lemma strip_piece_of s : piece_of (strip s) s.
Proof.
  destruct (rstrip_prefix s) as [b Hb].
  destruct (lstrip_suffix (rstrip s)) as [a Ha].
  exists a, b. rewrite app_assoc. fold (strip s) in Ha. by rewrite <- Ha.
Qed.

Lemma nws_piece_of u v : piece_of u v -> piece_of (nws u) (nws v).
Proof. intros (a & b & ->). exists (nws a), (nws b). by rewrite !nws_app. Qed.

(** The loop over the parts: every chunk it emits is a piece of what it
    was given, [pre] being what was read before. *)
Lemma run_piece_of adds :
  forall current pre, current `suffix_of` pre ->
  Forall (fun x => piece_of x (pre ++ concat adds))
         (run chunk_size overlap current adds).
Proof.
  induction adds as [|a adds IH]; intros current pre Hsuf; cbn [run concat].
  - rewrite app_nil_r. case_bool_decide; [|done]. constructor; [|done].
    eapply piece_of_trans; [apply strip_piece_of | by apply suffix_piece_of].
  - rewrite app_assoc. destruct (len current + len a <=? chunk_size).
    + apply IH. by apply suffix_app.
    + apply Forall_app. split.
      * case_bool_decide; [|done]. constructor; [|done].
        rewrite <- app_assoc. apply piece_of_app_r.
        eapply piece_of_trans; [apply strip_piece_of|by apply suffix_piece_of].
      * apply IH. apply suffix_app.
        etrans; [apply overlap_start_suffix | done].
Qed.

Lemma concat_adds_of sep c :
  sep <> [] -> sep <> [SP] -> concat (adds_of sep c) = c.
Proof.
  intros Hne Hsp. unfold adds_of. rewrite bool_decide_eq_true_2 by done.
  rewrite (imap_ext _ (fun i => add_of sep (length (split sep c)) (0 + i)))
    by done.
  rewrite concat_adds by done. by apply join_split.
Qed.

Lemma concat_adds_of_ws c : concat (adds_of [SP] c) = nws c.
Proof. rewrite adds_of_ws. apply concat_re_split_go. Qed.

(** Above the whitespace level a segment yields pieces of itself. *)
Lemma segment_piece_of sep c :
  sep <> [] -> sep <> [SP] ->
  Forall (fun x => piece_of x c) (segment chunk_size overlap sep c).
Proof.
  intros Hne Hsp. unfold segment. destruct (len c <=? chunk_size).
  - constructor; [apply piece_of_refl | done].
  - pose proof (run_piece_of (adds_of sep c) [] [] ltac:(done)) as H.
    by rewrite concat_adds_of in H.
Qed.

Lemma bind_segment_piece_of sep text chunks :
  sep <> [] -> sep <> [SP] ->
  Forall (fun c => piece_of c text) chunks ->
  Forall (fun x => piece_of x text)
         (chunks ≫= segment chunk_size overlap sep).
Proof.
  intros Hne Hsp H. apply Forall_bind. eapply Forall_impl; [exact H|].
  intros c Hc. eapply Forall_impl; [by apply segment_piece_of|].
  intros x Hx. eapply piece_of_trans; [exact Hx | exact Hc].
Qed.

(** The segments that reach the whitespace level are pieces of the text. *)
Lemma upper_levels_piece_of text :
  Forall (fun c => piece_of c text)
    ((([text] ≫= segment chunk_size overlap [NL; NL])
        ≫= segment chunk_size overlap [NL])
       ≫= segment chunk_size overlap [DOT; SP]).
Proof.
  do 3 (apply bind_segment_piece_of; [done|done|]).
  constructor; [apply piece_of_refl | done].
Qed.

(** At the whitespace level a segment is kept, or yields pieces of its
    non-whitespace characters. *)
Lemma segment_ws_piece_of c :
  Forall (fun x => piece_of (nws x) (nws c))
         (segment chunk_size overlap [SP] c).
Proof.
  unfold segment. destruct (len c <=? chunk_size).
  - constructor; [apply piece_of_refl | done].
  - pose proof (run_piece_of (adds_of [SP] c) [] [] ltac:(done)) as H.
    rewrite concat_adds_of_ws in H. cbn [app] in H.
    pose proof (run_ws_no_ws chunk_size overlap c) as Hno.
    rewrite Forall_forall in H, Hno. apply Forall_forall. intros x Hx.
    rewrite (nws_no_ws x) by by apply Hno. by apply H.
Qed.

Lemma chunk_text_covers text :
  covers overlap (_chunk_text text chunk_size overlap) text.
Proof.
  rewrite chunk_text_unfold. unfold covers.
  destruct (bool_decide (text = [])) eqn:E1; cbn [orb].
  { apply bool_decide_eq_true in E1 as ->. exists []. by split. }
  destruct (bool_decide (strip text = [])) eqn:E2.
  { apply bool_decide_eq_true in E2. exists []. split; [constructor|].
    symmetry. by apply strip_nil_nws. }
  assert (Forall2 (body_of overlap) [text] [nws text]) as H0.
  { repeat constructor. exists []. by split. }
  destruct (bind_segment_bodies chunk_size overlap [NL; NL] _ _
              ltac:(done) H0) as (b1 & H1 & Hc1).
  destruct (bind_segment_bodies chunk_size overlap [NL] _ _
              ltac:(done) H1) as (b2 & H2 & Hc2).
  destruct (bind_segment_bodies chunk_size overlap [DOT; SP] _ _
              ltac:(done) H2) as (b3 & H3 & Hc3).
  destruct (bind_segment_bodies chunk_size overlap [SP] _ _
              ltac:(done) H3) as (b4 & H4 & Hc4).
  destruct (filter_bodies overlap _ _ H4) as (b5 & H5 & Hc5).
  exists b5. split; [done|].
  rewrite Hc5, Hc4, Hc3, Hc2, Hc1. simpl. by rewrite app_nil_r.
Qed.

Lemma strip_nonempty_nws s : strip s <> [] -> nws s <> [].
Proof.
  intros Hne. rewrite <- nws_strip.
  pose proof (strip_trimmed s) as [Hs _].
  destruct (strip s) as [|c r]; [done|]. simpl in Hs.
  unfold nws. by rewrite filter_cons_True.
Qed.

End ChunkPieces.

(** X1. [_chunk_text] returns no chunk exactly when the text is empty or
    all whitespace, and it never returns a chunk that is empty or all
    whitespace. *)
Theorem chunk_text_empty_iff_blank text chunk_size overlap :
  (Chunker._chunk_text text chunk_size overlap = [] <-> Str.strip text = [])
  /\ Forall (fun c => Str.strip c <> [])
            (Chunker._chunk_text text chunk_size overlap).
Proof.
  split; [split|].
  - intros Hnil. destruct (decide (Str.strip text = [])) as [|Hne]; [done|].
    pose proof (chunk_text_covers chunk_size overlap text) as (bs & HF & Hc).
    rewrite Hnil in HF. apply Forall2_nil_inv_l in HF as ->.
    by apply strip_nonempty_nws in Hne.
  - intros Hblank. unfold Chunker._chunk_text.
    rewrite (bool_decide_eq_true_2 (Str.strip text = [])) by done.
    by rewrite orb_true_r.
  - unfold Chunker._chunk_text.
    destruct (_ || _); [done|]. apply Forall_forall. intros c Hc.
    by apply list_elem_of_filter in Hc as [? _].
Qed.

(** X2. Every chunk returned by [_chunk_text] is, whitespace apart, one
    contiguous piece of the text: chunking never reorders characters and
    never puts together characters that are apart in the text, except
    across whitespace. *)
Theorem chunk_is_piece_of_text text chunk_size overlap :
  Forall (fun c => piece_of (nws c) (nws text))
         (Chunker._chunk_text text chunk_size overlap).
Proof.
  rewrite chunk_text_unfold.
  destruct (_ || _); [done|].
  apply Forall_forall. intros c Hc.
  apply list_elem_of_filter in Hc as [_ Hc].
  apply list_elem_of_bind in Hc as (c0 & Hc & Hc0).
  pose proof (upper_levels_piece_of chunk_size overlap text) as Hup.
  rewrite Forall_forall in Hup. specialize (Hup _ Hc0).
  pose proof (segment_ws_piece_of chunk_size overlap c0) as Hws.
  rewrite Forall_forall in Hws. specialize (Hws _ Hc).
  eapply piece_of_trans; [exact Hws | by apply nws_piece_of].
Qed.

(** ** How long a chunk can be *)

Section ChunkLength.
Import Str Chunker.
Context (chunk_size overlap : Z).

(** As [run_Forall], with the test of the loop known where the part is
    appended. *)
Lemma run_Forall_fits (I A P : list N -> Prop) :
  (forall cur add, I cur -> A add ->
     len cur + len add <= chunk_size -> I (cur ++ add)) ->
  (forall cur add, I cur -> A add -> I (overlap_start overlap cur ++ add)) ->
  (forall cur, I cur -> P (strip cur)) ->
  forall adds current, I current -> Forall A adds ->
  Forall P (run chunk_size overlap current adds).
Proof.
  intros Happ Hseed Hemit.
  induction adds as [|a adds IH]; intros current HI HA; simpl.
  - case_bool_decide; [|done]. constructor; [by apply Hemit | done].
  - inversion HA as [|?? Ha HA']; subst.
    destruct (len current + len a <=? chunk_size) eqn:E.
    + apply IH; [|done]. apply Happ; [done|done|lia].
    + apply Forall_app. split.
      * case_bool_decide; [|done]. constructor; [by apply Hemit | done].
      * apply IH; [by apply Hseed | done].
Qed.

(** The seed is never longer than the overlap. *)
Lemma overlap_start_len current :
  len (overlap_start overlap current) <= Z.max 0 overlap.
Proof.
  unfold overlap_start, last_chars.
  destruct (overlap <=? 0) eqn:E0; [unfold len; simpl; lia|].
  destruct (overlap <=? len current) eqn:E1; unfold len in *.
  - rewrite length_drop. lia.
  - lia.
Qed.

Lemma longest_run_ge cur best s :
  (cur <= longest_run cur best s)%nat /\ (best <= longest_run cur best s)%nat.
Proof.
  revert cur best. induction s as [|c s IH]; intros cur best; simpl; [lia|].
  destruct (isspace c).
  - destruct (IH 0%nat (Nat.max cur best)). lia.
  - destruct (IH (S cur) best). lia.
Qed.

Lemma longest_run_prefix w :
  no_ws w ->
  forall cur best b,
  (cur + length w <= longest_run cur best (w ++ b))%nat.
Proof.
  induction 1 as [|c w Hc Hw IH]; intros cur best b; cbn [app length].
  - destruct (longest_run_ge cur best b). lia.
  - cbn [longest_run]. rewrite Hc. specialize (IH (S cur) best b). lia.
Qed.

Lemma longest_run_piece w a b :
  no_ws w ->
  forall cur best,
  (length w <= longest_run cur best (a ++ w ++ b))%nat.
Proof.
  intros Hw. induction a as [|c a IH]; intros cur best; cbn [app].
  - pose proof (longest_run_prefix w Hw cur best b). lia.
  - cbn [longest_run]. destruct (isspace c); apply IH.
Qed.

(** No piece of [t] without whitespace is longer than its longest word. *)
Lemma longest_word_piece w t :
  no_ws w -> piece_of w t -> len w <= longest_word t.
Proof.
  intros Hw (a & b & ->). unfold len, longest_word.
  pose proof (longest_run_piece w a b Hw 0%nat 0%nat). lia.
Qed.

Lemma re_split_go_piece_of s :
  forall in_run cur pre,
  (in_run = true -> cur = []) -> cur `suffix_of` pre ->
  Forall (fun p => piece_of p (pre ++ s)) (re_split_go in_run cur s).
Proof.
  induction s as [|c s IH]; intros in_run cur pre Hrun Hsuf;
    cbn [re_split_go].
  - rewrite app_nil_r. constructor; [by apply suffix_piece_of | done].
  - replace (pre ++ c :: s) with ((pre ++ [c]) ++ s)
      by by rewrite <- app_assoc.
    destruct (isspace c).
    + destruct in_run.
      * apply IH; [done|]. rewrite Hrun by done. apply suffix_nil.
      * constructor.
        -- rewrite <- app_assoc. apply piece_of_app_r.
           by apply suffix_piece_of.
        -- apply IH; [done | apply suffix_nil].
    + apply IH; [done | by apply suffix_app].
Qed.

Lemma re_split_ws_piece_of s :
  Forall (fun p => piece_of p s) (re_split_ws s).
Proof. by apply (re_split_go_piece_of s false [] []). Qed.

(** At the whitespace level a chunk is longer than [chunk_size] by at most
    a seed before one word. *)
Lemma segment_ws_length text c :
  piece_of c text ->
  Forall (fun x =>
            len x <= Z.max chunk_size (Z.max 0 overlap + longest_word text))
         (segment chunk_size overlap [SP] c).
Proof.
  intros Hc. unfold segment. destruct (len c <=? chunk_size) eqn:E.
  { constructor; [lia | done]. }
  rewrite adds_of_ws.
  set (L := longest_word text).
  assert (0 <= L) as HL by (unfold L, longest_word; lia).
  apply (run_Forall_fits
           (fun cur => no_ws cur
                       /\ len cur <= Z.max chunk_size (Z.max 0 overlap + L))
           (fun add => no_ws add /\ len add <= L)).
  - intros cur add [Hn _] [Hn' _] Hfit. split; [by apply no_ws_app|].
    rewrite len_app. lia.
  - intros cur add [Hn _] [Hn' Hl]. split.
    + apply no_ws_app. split; [|done].
      eapply no_ws_suffix; [apply overlap_start_suffix | done].
    + rewrite len_app. pose proof (overlap_start_len cur). lia.
  - intros cur [Hn Hl]. by rewrite strip_no_ws.
  - split; [constructor | unfold len; simpl; lia].
  - pose proof (re_split_go_no_ws false [] c ltac:(constructor)) as Hno.
    pose proof (re_split_ws_piece_of c) as Hp. unfold re_split_ws in *.
    rewrite Forall_forall in Hno, Hp. apply Forall_forall. intros p Hin.
    split; [by apply Hno|]. apply longest_word_piece; [by apply Hno|].
    eapply piece_of_trans; [by apply Hp | done].
Qed.

End ChunkLength.

(** X3. No chunk returned by [_chunk_text] is longer than the larger of
    [chunk_size] and the overlap plus the longest whitespace-free run of
    the text; so when the overlap plus the longest word is at most
    [chunk_size], every chunk has at most [chunk_size] characters. *)
Theorem chunk_length_bound text chunk_size overlap :
  Forall (fun c =>
            Str.len c
            <= Z.max chunk_size (Z.max 0 overlap + longest_word text))
         (Chunker._chunk_text text chunk_size overlap)
  /\ (Z.max 0 overlap + longest_word text <= chunk_size ->
      Forall (fun c => Str.len c <= chunk_size)
             (Chunker._chunk_text text chunk_size overlap)).
Proof.
  assert (Forall (fun c =>
            Str.len c
            <= Z.max chunk_size (Z.max 0 overlap + longest_word text))
         (Chunker._chunk_text text chunk_size overlap)) as H.
  { rewrite chunk_text_unfold. destruct (_ || _); [done|].
    apply Forall_forall. intros c Hc.
    apply list_elem_of_filter in Hc as [_ Hc].
    apply list_elem_of_bind in Hc as (c0 & Hc & Hc0).
    pose proof (upper_levels_piece_of chunk_size overlap text) as Hup.
    rewrite Forall_forall in Hup. specialize (Hup _ Hc0).
    pose proof (segment_ws_length chunk_size overlap text c0 Hup) as Hws.
    rewrite Forall_forall in Hws. by apply Hws. }
  split; [done|]. intros Hle.
  eapply Forall_impl; [exact H|]. intros c Hc. simpl in Hc. lia.
Qed.

(** ** Chunks longer than the maximum size *)

Section OversizedChunks.
Import Str Chunker.
Context (chunk_size overlap : Z).
Local Abbreviation fits_or_seeded_word :=
  (fits_or_seeded_word chunk_size overlap).

Lemma len_strip_le (s : list N) : len (strip s) <= len s.
Proof.
  destruct (strip_piece_of s) as (a & b & E).
  apply (f_equal length) in E. rewrite !length_app in E. unfold len. lia.
Qed.

(** At the whitespace level a segment that is split yields chunks that
    fit, or that are a seed followed by one of its words. *)
Lemma segment_ws_fits_or_seeded text c :
  piece_of c text ->
  Forall (fits_or_seeded_word text) (segment chunk_size overlap [SP] c).
Proof.
  intros Hc. unfold segment. destruct (len c <=? chunk_size) eqn:E.
  { constructor; [left; lia | done]. }
  rewrite adds_of_ws.
  apply (run_Forall_fits chunk_size overlap
           (fun cur => no_ws cur /\ fits_or_seeded_word text cur)
           (fun add => no_ws add /\ piece_of add text)).
  - intros cur add [Hn _] [Hn' _] Hfit. split; [by apply no_ws_app|].
    left. rewrite len_app. lia.
  - intros cur add [Hn _] [Hn' Hp]. split.
    + apply no_ws_app. split; [|done].
      eapply no_ws_suffix; [apply overlap_start_suffix | done].
    + right. exists add. split; [done|]. split; [done|]. split.
      * rewrite len_app. pose proof (overlap_start_len overlap cur). lia.
      * intros Hov. unfold overlap_start.
        by replace (overlap <=? 0) with true by (symmetry; by apply Z.leb_le).
  - intros cur [Hn Hl]. by rewrite strip_no_ws.
  - split; [constructor|]. right. exists []. split; [constructor|].
    split; [by exists [], text|]. split; [|done].
    unfold len. simpl. lia.
  - pose proof (re_split_go_no_ws false [] c ltac:(constructor)) as Hno.
    pose proof (re_split_ws_piece_of c) as Hp. unfold re_split_ws in *.
    rewrite Forall_forall in Hno, Hp. apply Forall_forall. intros p Hin.
    split; [by apply Hno|].
    eapply piece_of_trans; [by apply Hp | done].
Qed.

End OversizedChunks.



(** ** When identifiers are distinct *)

Section Identifiers.
Import Str Chunker Ingest.

Lemma digits_inj u v : digits u = digits v -> u = v.
Proof.
  revert v. induction u as [|u IH|u IH|u IH|u IH|u IH|u IH|u IH|u IH|u IH|u IH];
    intros [] H; simpl in H; try discriminate H; try done;
    injection H as H; f_equal; by apply IH.
Qed.

Lemma str_of_N_inj m n : str_of_N m = str_of_N n -> m = n.
Proof. intros H. by apply DecimalN.Unsigned.to_uint_inj, digits_inj. Qed.

Lemma digits_no_underscore u : 95%N ∉ digits u.
Proof.
  induction u; simpl; [by apply not_elem_of_nil|..];
    (apply not_elem_of_cons; split; [done|assumption]).
Qed.

(** The first occurrence of [x] is where it is. *)
Lemma first_sep_unique (x : N) l1 l2 r1 r2 :
  x ∉ l1 -> x ∉ l2 -> l1 ++ x :: r1 = l2 ++ x :: r2 -> l1 = l2 /\ r1 = r2.
Proof.
  revert l2. induction l1 as [|a l1 IH]; intros [|b l2] H1 H2 H;
    simpl in H.
  - by injection H as ->.
  - injection H as <- _. exfalso. apply H2. left.
  - injection H as -> _. exfalso. apply H1. left.
  - injection H as -> H. apply not_elem_of_cons in H1 as [_ H1].
    apply not_elem_of_cons in H2 as [_ H2].
    destruct (IH l2 H1 H2 H) as [-> ->]. done.
Qed.

(** The last occurrence of [x] is where it is. *)
Lemma last_sep_unique (x : N) l1 l2 r1 r2 :
  x ∉ r1 -> x ∉ r2 -> l1 ++ x :: r1 = l2 ++ x :: r2 -> l1 = l2 /\ r1 = r2.
Proof.
  intros H1 H2 H. apply (f_equal reverse) in H.
  rewrite !reverse_app, !reverse_cons, <- !app_assoc in H. cbn [app] in H.
  apply first_sep_unique in H as [Hr Hl].
  - split; [by apply (inj reverse) | by apply (inj reverse)].
  - by rewrite elem_of_reverse.
  - by rewrite elem_of_reverse.
Qed.

(** Two identifiers of [ingest_paths] are equal only for the same base
    name and the same index. *)
Lemma path_doc_id_inj b1 i1 b2 i2 :
  path_doc_id b1 i1 = path_doc_id b2 i2 -> b1 = b2 /\ i1 = i2.
Proof.
  unfold path_doc_id. change (lit "_") with [95%N]. cbn [app]. intros H.
  apply last_sep_unique in H as [-> H]; try apply digits_no_underscore.
  split; [done | by apply str_of_N_inj].
Qed.

(** Two identifiers of [ingest_files_in_memory] are equal only for the
    same base name, the same index and the same bytes object. *)
Lemma memory_doc_id_inj b1 r1 i1 b2 r2 i2 :
  memory_doc_id b1 r1 i1 = memory_doc_id b2 r2 i2 ->
  b1 = b2 /\ obj_id r1 = obj_id r2 /\ i1 = i2.
Proof.
  unfold memory_doc_id. change (lit "_") with [95%N]. cbn [app]. intros H.
  assert (forall (b : list N) i o,
            b ++ 95%N :: str_of_N i ++ 95%N :: o
            = (b ++ 95%N :: str_of_N i) ++ 95%N :: o) as E
    by (intros; by rewrite <- app_assoc).
  rewrite !E in H.
  apply last_sep_unique in H as [H Hr]; try apply digits_no_underscore.
  apply last_sep_unique in H as [-> Hi]; try apply digits_no_underscore.
  split; [done|]. split; by apply str_of_N_inj.
Qed.

Lemma fmap_bind_comm {A B C} (f : B -> C) (g : A -> list B) (l : list A) :
  f <$> (l ≫= g) = l ≫= (fun x => f <$> g x).
Proof.
  induction l as [|x l IH]; [done|].
  by rewrite !bind_cons, fmap_app, IH.
Qed.

Lemma numbered_ids_elem doc_id start l x :
  x ∈ record_id <$> numbered doc_id start l ->
  exists i, x = doc_id (start + N.of_nat i)%N.
Proof.
  unfold numbered. intros Hx.
  apply list_elem_of_fmap in Hx as (r & -> & Hr).
  apply list_elem_of_lookup in Hr as (i & Hi).
  rewrite list_lookup_imap in Hi.
  destruct (l !! i) as [[c m]|]; [|done].
  injection Hi as <-. by exists i.
Qed.

Lemma numbered_ids_NoDup doc_id l :
  (forall i j, doc_id i = doc_id j -> i = j) ->
  forall start, NoDup (record_id <$> numbered doc_id start l).
Proof.
  intros Hinj. induction l as [|[c m] l IH]; intros start.
  - constructor.
  - rewrite numbered_cons, fmap_cons. apply NoDup_cons. split; [|apply IH].
    intros Hin. apply numbered_ids_elem in Hin as (i & Hi).
    apply Hinj in Hi. lia.
Qed.

Lemma NoDup_fmap_elem {A B} (f : A -> B) (l : list A) x y :
  NoDup (f <$> l) -> x ∈ l -> y ∈ l -> f x = f y -> x = y.
Proof.
  induction l as [|a l IH]; intros Hnd Hx Hy Hf; [by inversion Hx|].
  rewrite fmap_cons in Hnd. apply NoDup_cons in Hnd as [Ha Hnd].
  apply elem_of_cons in Hx as [->|Hx]; apply elem_of_cons in Hy as [->|Hy].
  - done.
  - exfalso. apply Ha. rewrite Hf. by apply list_elem_of_fmap_2.
  - exfalso. apply Ha. rewrite <- Hf. by apply list_elem_of_fmap_2.
  - by apply IH.
Qed.

Context (CHUNK_SIZE CHUNK_OVERLAP : Z).

Lemma file_record_ids_elem f x :
  x ∈ record_id <$> file_records CHUNK_SIZE CHUNK_OVERLAP f ->
  exists i, x = path_doc_id (p_stem f) i.
Proof.
  unfold file_records. destruct (load_document f); [by inversion 1|].
  intros (i & ->)%numbered_ids_elem. eauto.
Qed.

Lemma file_record_ids_NoDup f :
  NoDup (record_id <$> file_records CHUNK_SIZE CHUNK_OVERLAP f).
Proof.
  unfold file_records. destruct (load_document f); [constructor|].
  apply numbered_ids_NoDup. intros i j H.
  by apply path_doc_id_inj in H as [_ ?].
Qed.

Lemma batch_record_ids_NoDup paths :
  NoDup (p_stem <$> (paths ≫= files_of)) ->
  NoDup (record_id <$> batch_records CHUNK_SIZE CHUNK_OVERLAP paths).
Proof.
  intros Hnd. unfold batch_records. rewrite fmap_bind_comm.
  apply NoDup_bind.
  - intros f1 f2 x H1 H2 Hx1 Hx2.
    apply file_record_ids_elem in Hx1 as (i1 & ->).
    apply file_record_ids_elem in Hx2 as (i2 & Hx2).
    apply path_doc_id_inj in Hx2 as [Hs _].
    by eapply NoDup_fmap_elem.
  - intros f _. apply file_record_ids_NoDup.
  - by eapply NoDup_fmap_1.
Qed.

Context (temp_file : list N -> bytes_obj -> path_info).
Context (stem_of : list N -> list N).

Lemma upload_record_ids_elem item x :
  x ∈ record_id
        <$> upload_records CHUNK_SIZE CHUNK_OVERLAP temp_file stem_of item ->
  exists raw i,
    upload_key stem_of item = (stem_of item.2, obj_id raw)
    /\ x = memory_doc_id (stem_of item.2) raw i.
Proof.
  destruct item as [[[name raw] ext] display_name].
  unfold upload_records, upload_key.
  destruct (load_document _); [by inversion 1|].
  intros (i & ->)%numbered_ids_elem. by exists raw, (0 + N.of_nat i)%N.
Qed.

Lemma upload_record_ids_NoDup item :
  NoDup (record_id
           <$> upload_records CHUNK_SIZE CHUNK_OVERLAP temp_file stem_of item).
Proof.
  destruct item as [[[name raw] ext] display_name]. unfold upload_records.
  destruct (load_document _); [constructor|].
  apply numbered_ids_NoDup. intros i j H.
  by apply memory_doc_id_inj in H as (_ & _ & ?).
Qed.

Lemma upload_batch_record_ids_NoDup file_contents filenames :
  NoDup (upload_key stem_of <$> zip file_contents filenames) ->
  NoDup (record_id
           <$> upload_batch_records CHUNK_SIZE CHUNK_OVERLAP temp_file
                 stem_of file_contents filenames).
Proof.
  intros Hnd. unfold upload_batch_records. rewrite fmap_bind_comm.
  apply NoDup_bind.
  - intros x1 x2 y H1 H2 Hy1 Hy2.
    apply upload_record_ids_elem in Hy1 as (r1 & i1 & Hk1 & ->).
    apply upload_record_ids_elem in Hy2 as (r2 & i2 & Hk2 & Hy2).
    apply memory_doc_id_inj in Hy2 as (Hs & Hr & _).
    eapply NoDup_fmap_elem; [exact Hnd|done|done|].
    rewrite Hk1, Hk2. by rewrite Hs, Hr.
  - intros x _. apply upload_record_ids_NoDup.
  - by eapply NoDup_fmap_1.
Qed.

End Identifiers.

Section InsertedRecords.
Import Str Chunker Ingest.
Context (CHUNK_SIZE CHUNK_OVERLAP : Z).
Context (temp_file : list N -> bytes_obj -> path_info).
Context (stem_of : list N -> list N).

(** What a batch insert of [ingest_paths] carries. *)
Lemma ingest_paths_insert paths trace n errs ids docs metas :
  ingest_paths CHUNK_SIZE CHUNK_OVERLAP paths = (trace, returned (n, errs)) ->
  Add ids docs metas ∈ trace ->
  ids = record_id <$> batch_records CHUNK_SIZE CHUNK_OVERLAP paths
  /\ docs = record_chunk <$> batch_records CHUNK_SIZE CHUNK_OVERLAP paths
  /\ metas = record_meta <$> batch_records CHUNK_SIZE CHUNK_OVERLAP paths
  /\ docs <> [].
Proof.
  intros Hrun Hin. unfold ingest_paths in Hrun.
  destruct (accumulate_paths _ _ paths) as [e|a] eqn:Hacc; [done|].
  apply accumulate_paths_records, extends_empty in Hacc as (Hi & Hc & Hm).
  case_bool_decide; inversion Hrun; subst trace; clear Hrun;
    the_insert Hin.
  done.
Qed.

(** What a batch insert of [ingest_files_in_memory] carries. *)
Lemma ingest_uploads_insert file_contents filenames trace n errs
    ids docs metas :
  ingest_files_in_memory CHUNK_SIZE CHUNK_OVERLAP temp_file stem_of
    file_contents filenames = (trace, (n, errs)) ->
  Add ids docs metas ∈ trace ->
  let rs :=
    upload_batch_records CHUNK_SIZE CHUNK_OVERLAP temp_file stem_of
      file_contents filenames in
  ids = record_id <$> rs /\ docs = record_chunk <$> rs
  /\ metas = record_meta <$> rs /\ docs <> [].
Proof.
  intros Hrun Hin rs. unfold ingest_files_in_memory in Hrun.
  pose proof (accumulate_uploads_records CHUNK_SIZE CHUNK_OVERLAP
                temp_file stem_of file_contents filenames) as Hacc.
  apply extends_empty in Hacc as (Hi & Hc & Hm).
  case_bool_decide; inversion Hrun; subst trace; clear Hrun;
    the_insert Hin.
  done.
Qed.

End InsertedRecords.

(** X4. When the files that [ingest_paths] loads have pairwise distinct
    base names, the identifiers it hands to the batch insert are pairwise
    distinct. *)
Theorem ingest_paths_ids_distinct
    (CHUNK_SIZE CHUNK_OVERLAP : Z) paths trace n errs ids docs metas :
  Ingest.ingest_paths CHUNK_SIZE CHUNK_OVERLAP paths
    = (trace, inr (n, errs)) ->
  Ingest.Add ids docs metas ∈ trace ->
  NoDup (Ingest.p_stem <$> (paths ≫= files_of)) ->
  NoDup ids.
Proof.
  intros Hrun Hin Hnd.
  destruct (ingest_paths_insert _ _ _ _ _ _ _ _ _ Hrun Hin)
    as (-> & _ & _ & _).
  by apply batch_record_ids_NoDup.
Qed.

(** X4 at the batch of [/docs/a.txt] and [/docs/b.md]. *)
Lemma ingest_paths_ids_distinct_witness :
  NoDup [Str.lit "a_0"; Str.lit "b_0"].
Proof.
  apply (ingest_paths_ids_distinct 1024 200
           [ {| Ingest.r_path := text_file "a" ".txt" "x";
                Ingest.r_rglob := [] |};
             {| Ingest.r_path := text_file "b" ".md" "y";
                Ingest.r_rglob := [] |} ]
           [Ingest.GetOrCreateCollection;
            Ingest.Add [Str.lit "a_0"; Str.lit "b_0"]
              [Str.lit "x"; Str.lit "y"]
              [ {[ "source" := Ingest.VStr (Str.lit "a.txt") ]};
                {[ "source" := Ingest.VStr (Str.lit "b.md") ]} ]]
           2 [] _ [Str.lit "x"; Str.lit "y"]
           [ {[ "source" := Ingest.VStr (Str.lit "a.txt") ]};
             {[ "source" := Ingest.VStr (Str.lit "b.md") ]} ]).
  - vm_compute. reflexivity.
  - apply list_elem_of_further, list_elem_of_here.
  - apply (bool_decide_unpack _). vm_compute. exact I.
Defined.

(** X5. When the uploads given to [ingest_files_in_memory] differ pairwise
    in their base name or in the identity of their bytes object, the
    identifiers it hands to the batch insert are pairwise distinct. *)
Theorem ingest_uploads_ids_distinct
    (CHUNK_SIZE CHUNK_OVERLAP : Z)
    (temp_file : list N -> Ingest.bytes_obj -> Ingest.path_info)
    (stem_of : list N -> list N)
    file_contents filenames trace n errs ids docs metas :
  Ingest.ingest_files_in_memory CHUNK_SIZE CHUNK_OVERLAP temp_file stem_of
    file_contents filenames = (trace, (n, errs)) ->
  Ingest.Add ids docs metas ∈ trace ->
  NoDup (upload_key stem_of <$> zip file_contents filenames) ->
  NoDup ids.
Proof.
  intros Hrun Hin Hnd.
  destruct (ingest_uploads_insert _ _ _ _ _ _ _ _ _ _ _ _ Hrun Hin)
    as (-> & _ & _ & _).
  by apply upload_batch_record_ids_NoDup.
Qed.

(** X5 at two uploads named [a.txt], held by two bytes objects. *)
Lemma ingest_uploads_ids_distinct_witness :
  NoDup [Str.lit "a.txt_0_1"; Str.lit "a.txt_0_2"].
Proof.
  apply (ingest_uploads_ids_distinct 1024 200
           (fun _ _ => text_file "tmp" ".txt" "x") (fun name => name)
           [ (Str.lit "a.txt",
              {| Ingest.obj_id := 1; Ingest.obj_data := Str.lit "x" |},
              Str.lit ".txt");
             (Str.lit "a.txt",
              {| Ingest.obj_id := 2; Ingest.obj_data := Str.lit "x" |},
              Str.lit ".txt") ]
           [Str.lit "a.txt"; Str.lit "a.txt"]
           [Ingest.GetOrCreateCollection;
            Ingest.Add [Str.lit "a.txt_0_1"; Str.lit "a.txt_0_2"]
              [Str.lit "x"; Str.lit "x"]
              [ {[ "source" := Ingest.VStr (Str.lit "a.txt") ]};
                {[ "source" := Ingest.VStr (Str.lit "a.txt") ]} ]]
           2 [] _ [Str.lit "x"; Str.lit "x"]
           [ {[ "source" := Ingest.VStr (Str.lit "a.txt") ]};
             {[ "source" := Ingest.VStr (Str.lit "a.txt") ]} ]).
  - vm_compute. reflexivity.
  - apply list_elem_of_further, list_elem_of_here.
  - apply (bool_decide_unpack _). vm_compute. exact I.
Defined.

(** ** What the loader returns and what reaches storage *)

Section LoadedUnits.
Import Str Chunker Ingest.

Lemma elem_of_imap_inv {A B} (f : nat -> A -> B) (l : list A) y :
  y ∈ imap f l -> exists i x, l !! i = Some x /\ y = f i x.
Proof.
  intros (i & Hi)%list_elem_of_lookup. rewrite list_lookup_imap in Hi.
  destruct (l !! i) as [x|] eqn:E; [|done].
  injection Hi as <-. eauto.
Qed.

Lemma elem_of_imap_2 {A B} (f : nat -> A -> B) (l : list A) i x :
  l !! i = Some x -> f i x ∈ imap f l.
Proof.
  intros Hi. apply list_elem_of_lookup. exists i.
  by rewrite list_lookup_imap, Hi.
Qed.

(** The units of a PDF: its pages that are not blank, each with its
    number. *)
Lemma load_pdf_elem path pages items text meta :
  p_pdf_pages path = returned pages ->
  load_pdf path = returned items ->
  (text, meta) ∈ items <->
  exists i,
    pages !! i = Some text /\ strip text <> []
    /\ meta = {[ "source" := VStr (p_name path);
                 "page" := VInt (Z.of_nat i + 1) ]}.
Proof.
  intros Hp. unfold load_pdf. rewrite Hp. intros [= <-].
  rewrite list_elem_of_omap. split.
  - intros (o & Ho & Hid). unfold id in Hid. subst o.
    apply elem_of_imap_inv in Ho as (i & x & Hi & Hx).
    case_bool_decide; [|done]. injection Hx as -> ->. eauto.
  - intros (i & Hi & Hne & ->). eexists. split; [|reflexivity].
    pose proof (elem_of_imap_2
      (fun i text =>
         if bool_decide (strip text <> []) then
           Some (text, ({[ "source" := VStr (p_name path);
                           "page" := VInt (Z.of_nat i + 1) ]}
                        : gmap string value))
         else None) pages i text Hi) as H.
    cbn beta in H. by rewrite bool_decide_eq_true_2 in H.
Qed.

Lemma load_pdf_units path items :
  load_pdf path = returned items ->
  Forall (fun '(text, meta) =>
            strip text <> []
            /\ meta !! "source" = Some (VStr (p_name path))) items.
Proof.
  unfold load_pdf. destruct (p_pdf_pages path) as [e|pages]; [done|].
  intros [= <-]. apply Forall_forall. intros [text meta] Hin.
  apply list_elem_of_omap in Hin as (o & Ho & Hid). unfold id in Hid.
  subst o. apply elem_of_imap_inv in Ho as (i & x & Hi & Hx).
  case_bool_decide; [|done]. injection Hx as -> ->.
  split; [done|]. by rewrite lookup_insert_eq.
Qed.

Lemma load_text_units path items :
  load_text path = returned items ->
  Forall (fun '(text, meta) =>
            strip text <> []
            /\ meta !! "source" = Some (VStr (p_name path))) items.
Proof.
  unfold load_text. destruct (p_read_text path) as [e|text]; [done|].
  case_bool_decide; intros [= <-]; [done|].
  constructor; [|done]. split; [done|]. by rewrite lookup_singleton_eq.
Qed.

Lemma load_document_units_ok path items :
  load_document path = returned items ->
  Forall (fun '(text, meta) =>
            strip text <> []
            /\ meta !! "source" = Some (VStr (p_name path))) items.
Proof.
  unfold load_document. destruct (negb (p_exists path)).
  { by intros [= <-]. }
  case_bool_decide; [apply load_pdf_units|].
  case_bool_decide; [apply load_text_units|].
  by intros [= <-].
Qed.

Lemma chunk_text_nonblank text chunk_size overlap c :
  c ∈ _chunk_text text chunk_size overlap -> strip c <> [].
Proof.
  unfold _chunk_text. destruct (_ || _); [by inversion 1|].
  by intros [? _]%list_elem_of_filter.
Qed.

Lemma chunk_text_nonempty text chunk_size overlap :
  strip text <> [] -> _chunk_text text chunk_size overlap <> [].
Proof.
  intros Hne Hnil.
  pose proof (chunk_text_covers chunk_size overlap text) as (bs & HF & Hc).
  rewrite Hnil in HF. apply Forall2_nil_inv_l in HF as ->.
  by apply strip_nonempty_nws in Hne.
Qed.

Context (CHUNK_SIZE CHUNK_OVERLAP : Z).

Lemma unit_chunks_elem f items chunk meta :
  (chunk, meta) ∈ unit_chunks CHUNK_SIZE CHUNK_OVERLAP f items ->
  exists text meta0,
    (text, meta0) ∈ items /\ meta = f meta0
    /\ chunk ∈ _chunk_text text CHUNK_SIZE CHUNK_OVERLAP.
Proof.
  unfold unit_chunks. intros ([text meta0] & Hin & Hit)%list_elem_of_bind.
  apply list_elem_of_fmap in Hin as (c & [= -> ->] & Hc). eauto.
Qed.

Lemma numbered_elem doc_id start l r :
  r ∈ numbered doc_id start l ->
  (record_chunk r, record_meta r) ∈ l.
Proof.
  unfold numbered. intros (i & [c m] & Hi & ->)%elem_of_imap_inv.
  by eapply list_elem_of_lookup_2.
Qed.

Lemma unit_chunks_nonempty f items :
  items <> [] ->
  Forall (fun '(text, _) => strip text <> []) items ->
  unit_chunks CHUNK_SIZE CHUNK_OVERLAP f items <> [].
Proof.
  intros Hne HF. destruct items as [|[text meta] items]; [done|].
  inversion HF as [|?? Ht _]; subst. unfold unit_chunks.
  rewrite bind_cons. intros Hnil. apply app_eq_nil in Hnil as [Hnil _].
  apply fmap_nil_inv in Hnil. by apply chunk_text_nonempty in Hnil.
Qed.

Lemma numbered_nil_inv doc_id start l : numbered doc_id start l = [] -> l = [].
Proof. destruct l as [|[c m] l]; [done|]. by rewrite numbered_cons. Qed.

End LoadedUnits.

(** X6. Every text unit that [load_document] returns has a text that is
    not blank, and metadata whose ["source"] is the name of the file. *)
Theorem load_document_units path items :
  Ingest.load_document path = inr items ->
  Forall (fun '(text, meta) =>
            Str.strip text <> []
            /\ meta !! "source" = Some (Ingest.VStr (Ingest.p_name path)))
         items.
Proof. apply load_document_units_ok. Qed.

(** X6 at the text file [/docs/a.txt]. *)
Lemma load_document_units_witness :
  Forall (fun '(text, meta) =>
            Str.strip text <> []
            /\ meta !! "source"
               = Some (Ingest.VStr (Ingest.p_name (text_file "a" ".txt" "x"))))
         [(Str.lit "x",
           ({[ "source" := Ingest.VStr (Str.lit "a.txt") ]}
            : gmap string Ingest.value))].
Proof.
  apply (load_document_units (text_file "a" ".txt" "x")).
  vm_compute. reflexivity.
Defined.



Section StoredChunks.
Import Str Chunker Ingest.
Context (CHUNK_SIZE CHUNK_OVERLAP : Z).
Context (temp_file : list N -> bytes_obj -> path_info).
Context (stem_of : list N -> list N).

Lemma file_records_ok f r :
  r ∈ file_records CHUNK_SIZE CHUNK_OVERLAP f ->
  strip (record_chunk r) <> []
  /\ record_meta r !! "source" = Some (VStr (p_name f)).
Proof.
  unfold file_records.
  destruct (load_document f) as [e|items] eqn:E; [by inversion 1|].
  intros Hr. apply numbered_elem, unit_chunks_elem in Hr
    as (text & meta0 & Hin & Hm & Hc).
  apply load_document_units_ok in E. rewrite Forall_forall in E.
  specialize (E _ Hin). cbn beta iota in E. destruct E as [_ E].
  split; [by eapply chunk_text_nonblank | by rewrite Hm].
Qed.

Lemma upload_records_ok item r :
  r ∈ upload_records CHUNK_SIZE CHUNK_OVERLAP temp_file stem_of item ->
  strip (record_chunk r) <> []
  /\ record_meta r !! "source" = Some (VStr item.2).
Proof.
  destruct item as [[[name raw] ext] display_name]. unfold upload_records.
  destruct (load_document _) as [e|items]; [by inversion 1|].
  intros Hr. apply numbered_elem, unit_chunks_elem in Hr
    as (text & meta0 & Hin & Hm & Hc).
  split; [by eapply chunk_text_nonblank|].
  rewrite Hm. by rewrite lookup_insert_eq.
Qed.

End StoredChunks.

(** X8. A batch insert of [ingest_paths] is never empty, none of its
    documents is blank, and the ["source"] of each of its metadatas is the
    name of one of the files that were loaded. *)
Theorem ingest_paths_stores_named_text
    (CHUNK_SIZE CHUNK_OVERLAP : Z) paths trace n errs ids docs metas :
  Ingest.ingest_paths CHUNK_SIZE CHUNK_OVERLAP paths
    = (trace, inr (n, errs)) ->
  Ingest.Add ids docs metas ∈ trace ->
  docs <> []
  /\ Forall (fun d => Str.strip d <> []) docs
  /\ Forall (fun m =>
               exists f, f ∈ paths ≫= files_of
                 /\ m !! "source" = Some (Ingest.VStr (Ingest.p_name f)))
            metas.
Proof.
  intros Hrun Hin.
  destruct (ingest_paths_insert _ _ _ _ _ _ _ _ _ Hrun Hin)
    as (_ & Hd & Hm & Hne).
  split; [done|]. subst docs metas.
  split; apply Forall_fmap, Forall_forall; intros r Hr;
    apply list_elem_of_bind in Hr as (f & Hr & Hf);
    apply file_records_ok in Hr as [? ?]; [done|]. by exists f.
Qed.

(** X8 at the batch of [/docs/a.txt] and [/docs/b.md]. *)
Lemma ingest_paths_stores_named_text_witness :
  [Str.lit "x"; Str.lit "y"] <> []
  /\ Forall (fun d => Str.strip d <> []) [Str.lit "x"; Str.lit "y"]
  /\ Forall (fun m =>
               exists f,
                 f ∈ [ {| Ingest.r_path := text_file "a" ".txt" "x";
                          Ingest.r_rglob := [] |};
                       {| Ingest.r_path := text_file "b" ".md" "y";
                          Ingest.r_rglob := [] |} ] ≫= files_of
                 /\ m !! "source" = Some (Ingest.VStr (Ingest.p_name f)))
            [ ({[ "source" := Ingest.VStr (Str.lit "a.txt") ]}
               : gmap string Ingest.value);
              {[ "source" := Ingest.VStr (Str.lit "b.md") ]} ].
Proof.
  apply (ingest_paths_stores_named_text 1024 200 _
           [Ingest.GetOrCreateCollection;
            Ingest.Add [Str.lit "a_0"; Str.lit "b_0"]
              [Str.lit "x"; Str.lit "y"]
              [ {[ "source" := Ingest.VStr (Str.lit "a.txt") ]};
                {[ "source" := Ingest.VStr (Str.lit "b.md") ]} ]]
           2 [] [Str.lit "a_0"; Str.lit "b_0"]).
  - vm_compute. reflexivity.
  - apply list_elem_of_further, list_elem_of_here.
Defined.

(** X9. A batch insert of [ingest_files_in_memory] is never empty, none of
    its documents is blank, and the ["source"] of each of its metadatas is
    one of the display names given: the name of the temporary file never
    reaches storage. *)
Theorem ingest_uploads_stores_display_names
    (CHUNK_SIZE CHUNK_OVERLAP : Z)
    (temp_file : list N -> Ingest.bytes_obj -> Ingest.path_info)
    (stem_of : list N -> list N)
    file_contents filenames trace n errs ids docs metas :
  Ingest.ingest_files_in_memory CHUNK_SIZE CHUNK_OVERLAP temp_file stem_of
    file_contents filenames = (trace, (n, errs)) ->
  Ingest.Add ids docs metas ∈ trace ->
  docs <> []
  /\ Forall (fun d => Str.strip d <> []) docs
  /\ Forall (fun m =>
               exists name, name ∈ filenames
                 /\ m !! "source" = Some (Ingest.VStr name))
            metas.
Proof.
  intros Hrun Hin.
  destruct (ingest_uploads_insert _ _ _ _ _ _ _ _ _ _ _ _ Hrun Hin)
    as (_ & Hd & Hm & Hne).
  split; [done|]. subst docs metas.
  split; apply Forall_fmap, Forall_forall; intros r Hr;
    apply list_elem_of_bind in Hr as (item & Hr & Hitem);
    apply upload_records_ok in Hr as [? ?]; [done|].
  exists item.2. split; [|done].
  destruct item as [x name]. by apply elem_of_zip_r in Hitem.
Qed.

(** X9 at two uploads named [a.txt]. *)
Lemma ingest_uploads_stores_display_names_witness :
  [Str.lit "x"; Str.lit "x"] <> []
  /\ Forall (fun d => Str.strip d <> []) [Str.lit "x"; Str.lit "x"]
  /\ Forall (fun m =>
               exists name, name ∈ [Str.lit "a.txt"; Str.lit "a.txt"]
                 /\ m !! "source" = Some (Ingest.VStr name))
            [ ({[ "source" := Ingest.VStr (Str.lit "a.txt") ]}
               : gmap string Ingest.value);
              {[ "source" := Ingest.VStr (Str.lit "a.txt") ]} ].
Proof.
  apply (ingest_uploads_stores_display_names 1024 200
           (fun _ _ => text_file "tmp" ".txt" "x") (fun name => name)
           [ (Str.lit "a.txt",
              {| Ingest.obj_id := 1; Ingest.obj_data := Str.lit "x" |},
              Str.lit ".txt");
             (Str.lit "a.txt",
              {| Ingest.obj_id := 2; Ingest.obj_data := Str.lit "x" |},
              Str.lit ".txt") ]
           [Str.lit "a.txt"; Str.lit "a.txt"]
           [Ingest.GetOrCreateCollection;
            Ingest.Add [Str.lit "a.txt_0_1"; Str.lit "a.txt_0_2"]
              [Str.lit "x"; Str.lit "x"]
              [ {[ "source" := Ingest.VStr (Str.lit "a.txt") ]};
                {[ "source" := Ingest.VStr (Str.lit "a.txt") ]} ]]
           2 [] [Str.lit "a.txt_0_1"; Str.lit "a.txt_0_2"]).
  - vm_compute. reflexivity.
  - apply list_elem_of_further, list_elem_of_here.
Defined.

(** ** The error messages *)

Section ErrorMessages.
Import Str Chunker Ingest.
Context (CHUNK_SIZE CHUNK_OVERLAP : Z).
Context (temp_file : list N -> bytes_obj -> path_info).
Context (stem_of : list N -> list N).

Lemma omap_cons_option_list {A B} (f : A -> option B) x l :
  omap f (x :: l) = option_list (f x) ++ omap f l.
Proof. simpl. by destruct (f x). Qed.

Lemma ingest_upload_errors a item :
  errors (ingest_upload CHUNK_SIZE CHUNK_OVERLAP temp_file stem_of a item)
  = errors a ++ option_list (upload_error temp_file item).
Proof.
  destruct item as [[[name raw] ext] display_name].
  unfold ingest_upload, upload_error.
  destruct (load_document _) as [e|[|item items]]; [done|done|].
  destruct (foldl_items CHUNK_SIZE CHUNK_OVERLAP
              (memory_doc_id (stem_of display_name) raw)
              (fun meta => <[ "source" := VStr display_name ]> meta)
              (item :: items) a 0%N) as (a1 & idx1 & Hf & He & _).
  cbn beta in Hf. rewrite Hf. cbn [fst option_list].
  by rewrite app_nil_r.
Qed.

Lemma foldl_uploads_errors items :
  forall a,
  errors (foldl (ingest_upload CHUNK_SIZE CHUNK_OVERLAP temp_file stem_of)
                a items)
  = errors a ++ omap (upload_error temp_file) items.
Proof.
  induction items as [|item items IH]; intros a; cbn [foldl].
  - by rewrite app_nil_r.
  - by rewrite IH, ingest_upload_errors, omap_cons_option_list, <- app_assoc.
Qed.

(** An upload is reported exactly when it contributes no record. *)
Lemma upload_error_iff_no_records item :
  upload_error temp_file item = None <->
  upload_records CHUNK_SIZE CHUNK_OVERLAP temp_file stem_of item <> [].
Proof.
  destruct item as [[[name raw] ext] display_name].
  unfold upload_error, upload_records.
  destruct (load_document _) as [e|[|item items]] eqn:E; [done|done|].
  split; [intros _|done]. intros Hnil.
  apply numbered_nil_inv in Hnil. revert Hnil.
  apply unit_chunks_nonempty; [done|].
  apply load_document_units_ok in E.
  eapply Forall_impl; [exact E|]. by intros [text meta] [? _].
Qed.

Lemma add_file_errors f a a' :
  add_file CHUNK_SIZE CHUNK_OVERLAP f a = returned a' ->
  errors a' = errors a ++ option_list (file_error f).
Proof.
  unfold add_file, file_error.
  destruct (load_document f) as [e|[|item items]]; [done| |].
  - case_bool_decide; intros [= <-]; [done|].
    cbn [option_list]. by rewrite app_nil_r.
  - intros [= <-].
    destruct (foldl_items CHUNK_SIZE CHUNK_OVERLAP
                (path_doc_id (p_stem f)) id (item :: items) a 0%N)
      as (a1 & idx1 & Hf & He & _).
    unfold id in Hf at 1. cbn [foldl] in Hf. rewrite Hf.
    cbn [fst option_list]. by rewrite app_nil_r.
Qed.

Lemma for_each_files_errors (cond : path_info -> bool) files :
  forall a a',
  for_each (fun f a => if cond f then add_file CHUNK_SIZE CHUNK_OVERLAP f a
                       else returned a) files a = returned a' ->
  errors a' = errors a ++ omap file_error (List.filter cond files).
Proof.
  induction files as [|f files IH]; intros a a'; cbn [for_each List.filter].
  - intros [= <-]. by rewrite app_nil_r.
  - destruct (cond f).
    + destruct (add_file _ _ f a) as [e|a1] eqn:E; [done|].
      intros H. apply IH in H. apply add_file_errors in E.
      by rewrite H, E, omap_cons_option_list, <- app_assoc.
    + apply IH.
Qed.

Lemma visit_path_errors rp a a' :
  visit_path CHUNK_SIZE CHUNK_OVERLAP rp a = returned a' ->
  errors a' = errors a ++ path_errors rp.
Proof.
  unfold visit_path, path_errors, files_of.
  destruct (p_exists (r_path rp)); cbn [negb].
  - destruct (p_is_file (r_path rp)).
    + intros H. apply add_file_errors in H.
      by rewrite H, omap_cons_option_list, app_nil_r.
    + apply for_each_files_errors.
  - by intros [= <-].
Qed.

Lemma for_each_paths_errors paths :
  forall a a',
  for_each (visit_path CHUNK_SIZE CHUNK_OVERLAP) paths a = returned a' ->
  errors a' = errors a ++ (paths ≫= path_errors).
Proof.
  induction paths as [|rp paths IH]; intros a a'; cbn [for_each].
  - intros [= <-]. by rewrite app_nil_r.
  - destruct (visit_path _ _ rp a) as [e|a1] eqn:E; [done|].
    intros H. apply IH in H. apply visit_path_errors in E.
    by rewrite H, E, bind_cons, <- app_assoc.
Qed.

End ErrorMessages.

(** X10. The errors that [ingest_files_in_memory] returns are one message
    for each upload whose loading raised or gave no text unit, in the
    order of the uploads; and every upload is either reported or
    contributes at least one chunk, never both. *)
Theorem ingest_uploads_errors
    (CHUNK_SIZE CHUNK_OVERLAP : Z)
    (temp_file : list N -> Ingest.bytes_obj -> Ingest.path_info)
    (stem_of : list N -> list N) file_contents filenames :
  (Ingest.ingest_files_in_memory CHUNK_SIZE CHUNK_OVERLAP temp_file stem_of
     file_contents filenames).2.2
  = omap (upload_error temp_file) (zip file_contents filenames)
  /\ Forall (fun item =>
               upload_error temp_file item = None <->
               upload_records CHUNK_SIZE CHUNK_OVERLAP temp_file stem_of item
               <> [])
            (zip file_contents filenames).
Proof.
  split.
  - unfold Ingest.ingest_files_in_memory, Ingest.accumulate_uploads.
    pose proof (foldl_uploads_errors CHUNK_SIZE CHUNK_OVERLAP temp_file
                  stem_of (zip file_contents filenames) Ingest.empty_acc)
      as H.
    by case_bool_decide.
  - apply Forall_forall. intros item _.
    apply upload_error_iff_no_records.
Qed.

(** X11. When [ingest_paths] returns, its errors are, in the order of the
    paths: ["Not found: ..."] for each path that does not exist, and
    ["Empty or unreadable: ..."] for each file handed to [add_file] that
    gives no text unit and whose suffix is [.pdf], [.txt] or [.md]; such a
    file with the suffix [.text] is not reported. *)
Theorem ingest_paths_errors
    (CHUNK_SIZE CHUNK_OVERLAP : Z) paths trace n errs :
  Ingest.ingest_paths CHUNK_SIZE CHUNK_OVERLAP paths
    = (trace, inr (n, errs)) ->
  errs = paths ≫= path_errors.
Proof.
  unfold Ingest.ingest_paths, Ingest.accumulate_paths.
  destruct (Ingest.for_each _ paths Ingest.empty_acc) as [e|a] eqn:E;
    [done|].
  apply for_each_paths_errors in E. cbn [Ingest.errors Ingest.empty_acc] in E.
  cbn [app] in E. case_bool_decide; intros [= _ _ <-]; done.
Qed.

(** X11 at a missing path, a blank [.txt] file and a blank [.text] file. *)
Lemma ingest_paths_errors_witness :
  [Str.lit "Not found: /docs/gone";
   Str.lit "Empty or unreadable: /docs/a.txt"]
  = [ {| Ingest.r_path := missing_path "gone"; Ingest.r_rglob := [] |};
      {| Ingest.r_path := text_file "a" ".txt" " "; Ingest.r_rglob := [] |};
      {| Ingest.r_path := text_file "b" ".text" " "; Ingest.r_rglob := [] |} ]
    ≫= path_errors.
Proof.
  apply (ingest_paths_errors 1024 200 _ [Ingest.GetOrCreateCollection] 0).
  vm_compute. reflexivity.
Defined.

(** ** The prompt, the answer and the unpaired uploads *)

Section PromptFacts.
Import Str Ingest Rag.

Lemma contains_app_r p s t : contains p t = true -> contains p (s ++ t) = true.
Proof.
  intros H. induction s as [|b s IH]; [done|].
  cbn [app contains]. rewrite IH. apply orb_true_r.
Qed.

Lemma piece_of_contains p s : piece_of p s -> contains p s = true.
Proof.
  intros (a & b & ->). apply contains_app_r.
  destruct p as [|c p]; [by destruct b|].
  cbn [app contains].
  pose proof (startswith_refl_app (c :: p) b) as H. cbn [app] in H.
  by rewrite H.
Qed.

Lemma piece_of_app_l u v k : piece_of u v -> piece_of u (k ++ v).
Proof.
  intros (a & b & ->). exists (k ++ a), b. by rewrite <- !app_assoc.
Qed.

Lemma piece_of_join sep parts p : p ∈ parts -> piece_of p (join sep parts).
Proof.
  induction parts as [|q rest IH]; [by inversion 1|].
  intros [->|Hin]%elem_of_cons.
  - destruct rest as [|r rest]; [apply piece_of_refl|].
    rewrite join_cons by done. apply piece_of_app_r, piece_of_refl.
  - destruct rest as [|r rest]; [by inversion Hin|].
    rewrite join_cons by done. by apply piece_of_app_l, piece_of_app_l, IH.
Qed.

Lemma zip_replicate_r {A B} (l : list A) (z : B) n :
  (length l <= n)%nat -> zip l (replicate n z) = (fun x => (x, z)) <$> l.
Proof.
  revert n. induction l as [|x l IH]; intros [|n] Hn; simpl in *;
    try done; try lia.
  f_equal. apply IH. lia.
Qed.

Lemma truth_py_or_str a : truth (py_or a (PStr [])) = true \/ py_or a (PStr []) = PStr [].
Proof. unfold py_or. destruct (truth a) eqn:E; [by left | by right]. Qed.

End PromptFacts.

(** X12. Whatever the chunks, the prompt of [build_prompt] ends with
    ["Question: "] followed by the question, and it contains the labelled
    block of every chunk, hence the text of every chunk. *)
Theorem build_prompt_holds_question_and_chunks
    {dist : Type} (q : list N)
    (chunks : list (list N * gmap string Ingest.value * dist)) :
  Str.endswith (Str.lit "Question: " ++ q) (Rag.build_prompt q chunks) = true
  /\ Forall (fun '(text, m, _) =>
               Str.contains (Rag.source_block text m)
                 (Rag.build_prompt q chunks) = true
               /\ Str.contains text (Rag.build_prompt q chunks) = true)
            chunks.
Proof.
  split.
  - destruct chunks as [|c chunks]; cbn [Rag.build_prompt].
    + do 3 apply endswith_app_r. apply endswith_refl.
    + do 7 apply endswith_app_r. apply endswith_refl.
  - apply Forall_forall. intros [[text m] d] Hin.
    assert (piece_of (Rag.source_block text m) (Rag.build_prompt q chunks))
      as Hblock.
    { destruct chunks as [|c chunks]; [by inversion Hin|].
      cbn [Rag.build_prompt]. do 5 apply piece_of_app_l.
      apply piece_of_app_r. apply piece_of_join.
      by apply (list_elem_of_fmap_2
                  (fun '(text, m, _) => Rag.source_block text m)
                  _ (text, m, d)). }
    split; [by apply piece_of_contains|].
    apply piece_of_contains. eapply piece_of_trans; [|exact Hblock].
    unfold Rag.source_block. do 4 apply piece_of_app_l. apply piece_of_refl.
Qed.

(** X13. When the store is not empty and its answer carries no distances,
    [retrieve] returns every (text, metadata) pair of the answer, in order,
    with the distance [0.0]: none is dropped for want of a distance. *)
Theorem retrieve_without_distances
    {dist : Type} (zero : dist) (coll : Rag.collection)
    (question : list N) (top_k : Z) :
  0 < Rag.count coll ->
  let answer :=
    Rag.query coll [question] (Z.min top_k (Rag.count coll)) in
  Rag.distances answer = None ->
  (Rag.retrieve zero coll question top_k).2
  = (fun pair => (pair, zero))
      <$> zip (default [] (Rag.documents answer))
              (default [] (Rag.metadatas answer)).
Proof.
  intros Hpos answer Hnone. unfold Rag.retrieve.
  replace (Rag.count coll =? 0) with false by (symmetry; apply Z.eqb_neq; lia).
  fold answer. rewrite Hnone. cbn [snd].
  apply zip_replicate_r. rewrite length_zip_with. lia.
Qed.

(** X13 at a store of two chunks that answers without distances. *)
Lemma retrieve_without_distances_witness :
  (Rag.retrieve 0%Z
     {| Rag.count := 2;
        Rag.query := fun _ _ =>
          {| Rag.documents := Some [Str.lit "a"; Str.lit "b"];
             Rag.metadatas := Some [∅; ∅];
             Rag.distances := None |} |}
     (Str.lit "q") 5).2
  = (fun pair => (pair, 0%Z))
      <$> zip [Str.lit "a"; Str.lit "b"]
              [(∅ : gmap string Ingest.value); ∅].
Proof.
  apply (retrieve_without_distances 0%Z
           {| Rag.count := 2;
              Rag.query := fun _ _ =>
                {| Rag.documents := Some [Str.lit "a"; Str.lit "b"];
                   Rag.metadatas := Some [∅; ∅];
                   Rag.distances := None |} |}
           (Str.lit "q") 5).
  - reflexivity.
  - reflexivity.
Defined.

(** X14. Without streaming, the answer that [ask] returns is never [None]:
    it is a value that counts as true, or the empty string.  When the
    response is a [dict] whose ["message"] is a non-empty [dict], or an
    object whose [message] is an object, the answer is the ["content"] of
    that message when it counts as true and the empty string otherwise, the
    same for both shapes. *)
Theorem ask_answer_normalised
    {dist : Type} (zero : dist) (coll : Rag.collection)
    (chat : list N -> list (list N * list N) -> bool -> Rag.pyval)
    (CHAT_MODEL question : list N) (top_k : Z) :
  let answer := (Rag.ask zero coll chat CHAT_MODEL question top_k false).2.1 in
  (Rag.truth answer = true \/ answer = Rag.PStr [])
  /\ (forall items m c,
        Rag.binding "message" items = Some (Rag.PDict m) -> m <> [] ->
        Rag.binding "content" m = Some c ->
        Rag.answer_of (Rag.PDict items)
        = if Rag.truth c then c else Rag.PStr [])
  /\ (forall attrs m c,
        Rag.binding "message" attrs = Some (Rag.PObj m) ->
        Rag.binding "content" m = Some c ->
        Rag.answer_of (Rag.PObj attrs)
        = if Rag.truth c then c else Rag.PStr []).
Proof.
  split; [|split].
  - unfold Rag.ask. destruct (Rag.retrieve zero coll question top_k).
    cbn [snd fst]. unfold Rag.answer_of. apply truth_py_or_str.
  - intros items m c Hm Hne Hc. unfold Rag.answer_of, Rag.dict_get.
    rewrite Hm. cbn [from_option id].
    assert (Rag.py_or (Rag.PDict m) (Rag.PDict []) = Rag.PDict m) as ->.
    { unfold Rag.py_or. cbn [Rag.truth].
      by rewrite bool_decide_eq_true_2. }
    cbn [Rag.getattr]. rewrite Hc. cbn [from_option id].
    unfold Rag.py_or. cbn [Rag.truth]. by destruct (Rag.truth c).
  - intros attrs m c Hm Hc. unfold Rag.answer_of.
    cbn [Rag.getattr]. rewrite Hm. cbn [from_option id Rag.getattr].
    rewrite Hc. cbn [from_option id]. unfold Rag.py_or.
    destruct (Rag.truth c) eqn:E; [by rewrite E|done].
Qed.

(** X15. [ingest_files_in_memory] pairs the uploads with the display names
    by position and ignores what has no partner: the uploads beyond the
    number of names, or the names beyond the number of uploads, change
    neither the calls made nor the value returned. *)
Theorem ingest_uploads_ignores_unpaired
    (CHUNK_SIZE CHUNK_OVERLAP : Z)
    (temp_file : list N -> Ingest.bytes_obj -> Ingest.path_info)
    (stem_of : list N -> list N) file_contents filenames :
  Ingest.ingest_files_in_memory CHUNK_SIZE CHUNK_OVERLAP temp_file stem_of
    file_contents filenames
  = Ingest.ingest_files_in_memory CHUNK_SIZE CHUNK_OVERLAP temp_file stem_of
      (take (length filenames) file_contents)
      (take (length file_contents) filenames).
Proof.
  unfold Ingest.ingest_files_in_memory, Ingest.accumulate_uploads.
  by rewrite zip_with_take_both.
Qed.

(** X16. For a store that holds [count >= 0] chunks, [retrieve] never asks
    for more results than are stored nor for more than [top_k], and it asks
    for at least one whenever [top_k >= 1]. *)
Theorem retrieve_requests_within_store
    {dist : Type} (zero : dist) (coll : Rag.collection)
    (question : list N) (top_k : Z) :
  0 <= Rag.count coll ->
  Forall (fun c =>
            match c with
            | Rag.Query _ n_results =>
                n_results <= Rag.count coll /\ n_results <= top_k
                /\ (1 <= top_k -> 1 <= n_results)
            | Rag.Count => True
            end)
         (Rag.retrieve zero coll question top_k).1.
Proof.
  intros Hcount. unfold Rag.retrieve.
  destruct (Rag.count coll =? 0) eqn:E; cbn [fst].
  - by repeat constructor.
  - apply Z.eqb_neq in E. repeat constructor; lia.
Qed.

(** X16 at a store of two chunks asked for five. *)
Lemma retrieve_requests_within_store_witness :
  Forall (fun c =>
            match c with
            | Rag.Query _ n_results =>
                n_results <= 2 /\ n_results <= 5 /\ (1 <= 5 -> 1 <= n_results)
            | Rag.Count => True
            end)
         (Rag.retrieve 0%Z
            {| Rag.count := 2;
               Rag.query := fun _ _ =>
                 {| Rag.documents := Some [Str.lit "a"; Str.lit "b"];
                    Rag.metadatas := Some [∅; ∅];
                    Rag.distances := None |} |}
            (Str.lit "q") 5).1.
Proof.
  apply (retrieve_requests_within_store 0%Z
           {| Rag.count := 2;
              Rag.query := fun _ _ =>
                {| Rag.documents := Some [Str.lit "a"; Str.lit "b"];
                   Rag.metadatas := Some [∅; ∅];
                   Rag.distances := None |} |}
           (Str.lit "q") 5).
  simpl. lia.
Defined.

(** X17. Without overlap ([overlap <= 0]) chunking loses and repeats
    nothing but whitespace: the non-whitespace characters of the chunks,
    one chunk after the other, are exactly those of the text. *)
Theorem chunk_text_lossless_without_overlap text chunk_size overlap :
  overlap <= 0 ->
  concat (nws <$> Chunker._chunk_text text chunk_size overlap) = nws text.
Proof.
  intros Hov.
  destruct (chunk_text_covers chunk_size overlap text) as (bs & HF & <-).
  f_equal. induction HF as [|c b chunks bs (d & Hd & Hnil) _ IH]; [done|].
  rewrite fmap_cons, IH, Hd, (Hnil Hov). done.
Qed.

(** X17 at the text ["aaa bbb ccc"] cut into chunks of at most 8. *)
Lemma chunk_text_lossless_without_overlap_witness :
  concat (nws <$> Chunker._chunk_text (Str.lit "aaa bbb ccc") 8 0)
  = nws (Str.lit "aaa bbb ccc").
Proof.
  apply (chunk_text_lossless_without_overlap (Str.lit "aaa bbb ccc") 8 0).
  lia.
Defined.

(** ** A paragraph cut between two of its words *)

Section WordGroups.
Import Str Chunker.
Context (chunk_size overlap : Z).

Lemma contains_piece_of p s : contains p s = true -> piece_of p s.
Proof.
  induction s as [|c s IH]; cbn [contains]; intros H.
  - rewrite orb_false_r in H. apply startswith_drop in H.
    exists [], (drop (length p) []). exact H.
  - apply orb_true_iff in H as [H|H].
    + apply startswith_drop in H.
      exists [], (drop (length p) (c :: s)). exact H.
    + destruct (IH H) as (a & b & ->). by exists (c :: a), b.
Qed.

(** What does not occur in a string does not occur in a piece of it. *)
Lemma contains_false_piece p s t :
  piece_of t s -> contains p s = false -> contains p t = false.
Proof.
  intros Hts Hs. destruct (contains p t) eqn:E; [|done].
  apply contains_piece_of in E.
  rewrite (piece_of_contains p s) in Hs; [done|].
  by eapply piece_of_trans.
Qed.

(** Parts that fit together are appended one after the other. *)
Lemma run_fits_all A :
  forall cur rest,
  len cur + len (concat A) <= chunk_size ->
  run chunk_size overlap cur (A ++ rest)
  = run chunk_size overlap (cur ++ concat A) rest.
Proof.
  induction A as [|a A IH]; intros cur rest H; cbn [concat app].
  - by rewrite app_nil_r.
  - cbn [concat] in H. rewrite len_app in H.
    pose proof (len_nonneg (concat A)). pose proof (len_nonneg a).
    cbn [run].
    replace (len cur + len a <=? chunk_size) with true
      by (symmetry; apply Z.leb_le; lia).
    rewrite IH by (rewrite len_app; lia). by rewrite <- app_assoc.
Qed.

(** The first group of parts: parts that fit together, or one part alone,
    whatever its length. *)
Lemma run_first_group A rest :
  len (concat A) <= chunk_size \/ (exists a, A = [a]) ->
  run chunk_size overlap [] (A ++ rest)
  = run chunk_size overlap (concat A) rest.
Proof.
  intros [Hfit|[a ->]].
  - apply (run_fits_all A [] rest). unfold len at 1. simpl. lia.
  - cbn [concat app]. rewrite app_nil_r.
    destruct (Z.le_gt_cases (len a) chunk_size) as [Hle|Hgt].
    + rewrite <- (app_nil_r a) at 2.
      apply (run_fits_all [a] [] rest). cbn [concat].
      rewrite app_nil_r. unfold len at 1. simpl. lia.
    + cbn [run].
      replace (len [] + len a <=? chunk_size) with false
        by (symmetry; apply Z.leb_gt; unfold len at 1; simpl; lia).
      rewrite bool_decide_eq_false_2 by (intros H; by apply H).
      by rewrite overlap_start_nil.
Qed.

(** With a positive overlap the seed is [current[-overlap:]], also when
    [current] is shorter than the overlap. *)
Lemma overlap_start_last_chars cur :
  0 < overlap -> overlap_start overlap cur = last_chars overlap cur.
Proof.
  intros H. unfold overlap_start, last_chars.
  replace (overlap <=? 0) with false by (symmetry; apply Z.leb_gt; lia).
  destruct (overlap <=? len cur) eqn:E; [done|].
  apply Z.leb_gt in E. unfold len in E.
  by replace (length cur - Z.to_nat overlap)%nat with 0%nat by lia.
Qed.

Lemma overlap_start_nonempty cur :
  0 < overlap -> cur <> [] -> overlap_start overlap cur <> [].
Proof.
  intros H Hne. unfold overlap_start, last_chars.
  replace (overlap <=? 0) with false by (symmetry; apply Z.leb_gt; lia).
  destruct (overlap <=? len cur) eqn:E; [|done].
  apply Z.leb_le in E. unfold len in E. intros Hnil.
  apply (f_equal length) in Hnil. rewrite length_drop in Hnil.
  cbn [length] in Hnil. lia.
Qed.

(** A segment in which the separator does not occur and whose ends are
    not whitespace stays as it is. *)
Lemma segment_no_occurrence_trimmed sep c :
  sep <> [SP] -> contains sep c = false -> trimmed c -> c <> [] ->
  segment chunk_size overlap sep c = [c].
Proof.
  intros Hsep Hocc Htrim Hne.
  destruct (Z.le_gt_cases (len c) chunk_size) as [Hle|Hgt].
  - by apply segment_fits.
  - rewrite segment_no_occurrence; rewrite ?trimmed_strip_id; done.
Qed.

(** A paragraph longer than [chunk_size], without line break and without
    sentence boundary, reaches the whitespace level whole, its ends
    stripped. *)
Lemma upper_levels_paragraph text :
  contains [NL] text = false -> contains [DOT; SP] text = false ->
  chunk_size < len text -> strip text <> [] ->
  (([text] ≫= segment chunk_size overlap [NL; NL])
     ≫= segment chunk_size overlap [NL])
    ≫= segment chunk_size overlap [DOT; SP]
  = [strip text].
Proof.
  intros Hnl Hdot Hlen Hne.
  assert (contains [NL; NL] text = false) as Hnl2.
  { destruct (contains [NL; NL] text) eqn:E; [|done].
    apply contains_piece_of in E.
    rewrite (piece_of_contains [NL] text) in Hnl; [done|].
    eapply piece_of_trans; [|exact E]. by exists [NL], []. }
  pose proof (strip_piece_of text) as Hp.
  pose proof (strip_trimmed text) as Htrim.
  rewrite bind_cons, segment_no_occurrence by done. cbn [mbind list_bind app].
  rewrite app_nil_r.
  rewrite segment_no_occurrence_trimmed;
    [|done|by eapply contains_false_piece|done|done].
  cbn [mbind list_bind app]. rewrite app_nil_r.
  rewrite segment_no_occurrence_trimmed;
    [|done|by eapply contains_false_piece|done|done].
  done.
Qed.

Lemma len_nws_le (s : list N) : len (nws s) <= len s.
Proof.
  unfold len, nws.
  pose proof (length_filter (fun c => isspace c = false) s). lia.
Qed.

(** The words of a paragraph without line break and without sentence
    boundary are a first group [A], that fits or is one word, a word [w]
    that does not fit with the group, and words [B] that fit with the seed
    and [w]: the paragraph gives two chunks, the second one starting with
    the seed of the first. *)
Lemma chunk_text_word_groups text A w B :
  0 < overlap ->
  contains [NL] text = false -> contains [DOT; SP] text = false ->
  re_split_ws (strip text) = A ++ w :: B ->
  concat A <> [] ->
  len (concat A) <= chunk_size \/ (exists a, A = [a]) ->
  chunk_size < len (concat A) + len w ->
  B = [] \/ overlap + len w + len (concat B) <= chunk_size ->
  _chunk_text text chunk_size overlap
  = [concat A; last_chars overlap (concat A) ++ w ++ concat B].
Proof.
  intros Hov Hnl Hdot Hwords HA Hfirst Hover Hrest.
  assert (Forall no_ws (A ++ w :: B)) as Hno.
  { rewrite <- Hwords. apply re_split_go_no_ws. constructor. }
  apply Forall_app in Hno as [HnoA Hno].
  apply Forall_cons in Hno as [Hnow HnoB].
  assert (forall L : list (list N), Forall no_ws L -> no_ws (concat L))
    as Hcat.
  { induction 1 as [|x L Hx _ IH]; [constructor|].
    cbn [concat]. by apply no_ws_app. }
  assert (strip text <> []) as Hne.
  { intros E. rewrite E in Hwords. destruct A as [|a A]; [done|].
    destruct A; discriminate Hwords. }
  assert (chunk_size < len (strip text)) as Hlen.
  { pose proof (len_nws_le (strip text)) as Hle.
    pose proof (concat_re_split_go false [] (strip text)) as Hc.
    fold (re_split_ws (strip text)) in Hc. rewrite Hwords in Hc.
    cbn [app] in Hc. rewrite <- Hc in Hle.
    rewrite concat_app in Hle. cbn [concat] in Hle.
    rewrite !len_app in Hle.
    pose proof (len_nonneg (concat B)). lia. }
  pose proof (len_strip_le text) as Hlen'.
  assert (text <> []) as Hne' by (intros ->; done).
  rewrite chunk_text_unfold.
  rewrite !bool_decide_eq_false_2 by done. cbn [orb].
  rewrite upper_levels_paragraph by (done || lia).
  rewrite bind_cons. cbn [mbind list_bind]. rewrite app_nil_r.
  unfold segment. destruct (len (strip text) <=? chunk_size) eqn:E; [lia|].
  rewrite adds_of_ws, Hwords.
  rewrite run_first_group by done. cbn [run].
  replace (len (concat A) + len w <=? chunk_size) with false
    by (symmetry; apply Z.leb_gt; lia).
  rewrite bool_decide_eq_true_2 by done.
  rewrite (strip_no_ws (concat A)) by by apply Hcat.
  set (seed := overlap_start overlap (concat A)).
  assert (no_ws seed) as Hnoseed.
  { eapply no_ws_suffix; [apply overlap_start_suffix | by apply Hcat]. }
  assert (seed <> []) as Hseed by by apply overlap_start_nonempty.
  assert (run chunk_size overlap (seed ++ w) B = [seed ++ w ++ concat B])
    as Hrun.
  { assert (no_ws (seed ++ w ++ concat B)) as Hno2.
    { apply no_ws_app. split; [done|]. apply no_ws_app. split; [done|].
      by apply Hcat. }
    assert (seed ++ w ++ concat B <> []) as Hne2.
    { intros H. by apply app_eq_nil in H as [? _]. }
    destruct Hrest as [->|Hfit].
    - cbn [run concat]. rewrite app_nil_r in *.
      rewrite strip_no_ws by done. by rewrite bool_decide_eq_true_2.
    - rewrite <- (app_nil_r B) at 1. rewrite run_fits_all.
      + cbn [run]. rewrite <- app_assoc.
        rewrite strip_no_ws by done. by rewrite bool_decide_eq_true_2.
      + rewrite len_app. pose proof (overlap_start_len overlap (concat A)).
        fold seed in H. lia. }
  rewrite Hrun. cbn [app].
  rewrite filter_cons_True by by rewrite strip_no_ws by by apply Hcat.
  rewrite filter_cons_True.
  - unfold seed. by rewrite overlap_start_last_chars.
  - rewrite strip_no_ws.
    + intros H. by apply app_eq_nil in H as [? _].
    + apply no_ws_app. split; [done|]. apply no_ws_app. split; [done|].
      by apply Hcat.
Qed.

End WordGroups.




(** ** Coverage, once: what a chunk repeats is the end of what came before *)

Section CoverageOnce.
Import Str Chunker.
Context (chunk_size overlap : Z).
Local Abbreviation seeded_body := (seeded_body overlap).
Local Abbreviation continues := (continues overlap).

Lemma nws_suffix s t : s `suffix_of` t -> nws s `suffix_of` nws t.
Proof. intros [k ->]. rewrite nws_app. by exists (nws k). Qed.

Lemma continues_app pre xs ys hs1 hs2 :
  continues pre xs hs1 -> continues (pre ++ concat hs1) ys hs2 ->
  continues pre (xs ++ ys) (hs1 ++ hs2).
Proof.
  induction 1 as [pre|pre c b chunks bodies Hc _ IH]; cbn [concat app];
    intros H.
  - by rewrite app_nil_r in H.
  - constructor; [done|]. apply IH. by rewrite <- app_assoc.
Qed.

(** Chunks that continue [P] continue every text that ends with [P]; when
    they have no body, every text that holds [P]. *)
Lemma continues_transfer P subs fs :
  continues P subs fs ->
  forall pre, piece_of P pre -> (concat fs <> [] -> P `suffix_of` pre) ->
  continues pre subs fs.
Proof.
  induction 1 as [P|P x f subs fs (e & He & Hl & Hp & Hs) _ IH];
    intros pre Hpiece Hsuf; [constructor|].
  cbn [concat] in Hsuf. constructor.
  - exists e. split; [done|]. split; [done|]. split.
    + by eapply piece_of_trans.
    + intros Hf. etrans; [by apply Hs|]. apply Hsuf.
      intros H. by apply app_eq_nil in H as [? _].
  - apply IH.
    + destruct f as [|y f]; [by rewrite !app_nil_r|].
      apply suffix_piece_of, suffix_app, Hsuf. done.
    + intros Hne. apply suffix_app, Hsuf.
      intros H. by apply app_eq_nil in H as [_ ?].
Qed.

(** The loop over the parts: [current] holds a copy [e] of the end of [P]
    and the body [g] read so far. *)
Lemma run_continues adds :
  forall current e g P,
  nws current = e ++ g -> e `suffix_of` P -> len e <= Z.max 0 overlap ->
  exists fs,
    continues P (run chunk_size overlap current adds) fs
    /\ concat fs = g ++ nws (concat adds).
Proof.
  induction adds as [|a adds IH]; intros current e g P He Hs Hl;
    cbn [run concat].
  - cbn [nws filter list_filter]. rewrite app_nil_r.
    case_bool_decide as Hne.
    + exists [g]. split; [|simpl; by rewrite app_nil_r].
      constructor; [|constructor].
      exists e. rewrite nws_strip. split; [done|]. split; [done|].
      split; [by apply suffix_piece_of | done].
    + exists []. split; [constructor|].
      rewrite (strip_nil_nws current Hne) in He.
      symmetry in He. by apply app_eq_nil in He as [_ ->].
  - rewrite nws_app. destruct (len current + len a <=? chunk_size).
    + destruct (IH (current ++ a) e (g ++ nws a) P) as (fs & HF & Hc);
        [by rewrite nws_app, He, <- app_assoc | done | done |].
      exists fs. split; [done|]. by rewrite Hc, <- app_assoc.
    + destruct (IH (overlap_start overlap current ++ a)
                   (nws (overlap_start overlap current)) (nws a) (P ++ g))
        as (fs & HF & Hc).
      * apply nws_app.
      * etrans; [apply nws_suffix, overlap_start_suffix|].
        rewrite He. by apply suffix_app.
      * pose proof (len_nws_le (overlap_start overlap current)).
        pose proof (overlap_start_len overlap current). lia.
      * case_bool_decide as Hne.
        -- exists (g :: fs). split; [|simpl; by rewrite Hc].
           constructor; [|done].
           exists e. rewrite nws_strip. split; [done|]. split; [done|].
           split; [by apply suffix_piece_of | done].
        -- subst current. cbn in He. symmetry in He.
           apply app_eq_nil in He as [_ ->]. rewrite app_nil_r in HF.
           exists fs. by split.
Qed.

(** Chunks that continue the string [d ++ b] from its start on continue
    [pre] by [b], when [d] is a copy of the end of [pre]: [P0] is what the
    chunks before have read of [d], [l] the rest of [d]. *)
Lemma continues_cut pre b subs :
  forall fs P0 l,
  continues P0 subs fs -> concat fs = l ++ b ->
  len (P0 ++ l) <= Z.max 0 overlap ->
  piece_of (P0 ++ l) pre ->
  (b <> [] -> (P0 ++ l) `suffix_of` pre) ->
  exists hs, continues pre subs hs /\ concat hs = b.
Proof.
  induction subs as [|x subs IH]; intros fs P0 l Hc Hcat Hlen Hpiece Hsuf.
  - inversion Hc; subst. cbn [concat] in Hcat. symmetry in Hcat.
    apply app_eq_nil in Hcat as [_ ->]. exists []. split; [constructor|done].
  - inversion Hc as [|? ? f ? fs' (e & He & Hle & Hpe & Hse) Hrest]; subst.
    cbn [concat] in Hcat.
    apply List.app_eq_app in Hcat as (a & [[Hf Hb]|[Hl Hcat']]).
    + (* the body of [x] reaches beyond [d] *)
      subst f. exists (a :: fs'). split; [|by rewrite Hb].
      constructor.
      * exists (e ++ l). split; [by rewrite He, app_assoc|].
        destruct (decide (l ++ a = [])) as [Hnil|Hne].
        -- apply app_eq_nil in Hnil as [-> ->].
           rewrite !app_nil_r in *. split; [done|].
           split; [by eapply piece_of_trans | done].
        -- specialize (Hse Hne).
           assert ((e ++ l) `suffix_of` (P0 ++ l)) as Hel
             by by apply suffix_app.
           split.
           { apply suffix_length in Hel. unfold len in *. lia. }
           split.
           { eapply piece_of_trans; [by apply suffix_piece_of | done]. }
           intros Ha. etrans; [exact Hel|]. apply Hsuf. subst b.
           intros H. by apply app_eq_nil in H as [? _].
      * apply (continues_transfer _ _ _ Hrest).
        -- rewrite app_assoc. destruct a as [|y a]; [by rewrite !app_nil_r|].
           apply suffix_piece_of, suffix_app, Hsuf. by subst b.
        -- intros Hne. rewrite app_assoc. apply suffix_app, Hsuf. subst b.
           intros H. by apply app_eq_nil in H as [_ ?].
    + (* the body of [x] lies within [d] *)
      subst l. rewrite app_assoc in Hlen, Hpiece, Hsuf.
      destruct (IH fs' (P0 ++ f) a Hrest Hcat' Hlen Hpiece Hsuf)
        as (hs & Hhs & Hcat).
      exists ([] :: hs). split; [|done].
      constructor; [|by rewrite app_nil_r].
      exists (e ++ f). split; [by rewrite app_nil_r|].
      assert (piece_of (P0 ++ f) pre) as Hpf.
      { eapply piece_of_trans; [|exact Hpiece].
        apply piece_of_app_r, piece_of_refl. }
      destruct (decide (f = [])) as [->|Hne].
      -- rewrite !app_nil_r in *. split; [done|].
         split; [by eapply piece_of_trans | done].
      -- specialize (Hse Hne).
         assert ((e ++ f) `suffix_of` (P0 ++ f)) as Hef
           by by apply suffix_app.
         split.
         { apply suffix_length in Hef. unfold len in *.
           rewrite length_app in Hlen. lia. }
         split; [|done].
         eapply piece_of_trans; [by apply suffix_piece_of | done].
Qed.

Lemma segment_continues sep pre c b :
  sep <> [] -> seeded_body pre c b ->
  exists hs,
    continues pre (segment chunk_size overlap sep c) hs /\ concat hs = b.
Proof.
  intros Hsep Hb. unfold segment. destruct (len c <=? chunk_size).
  - exists [b]. split; [|simpl; by rewrite app_nil_r].
    constructor; [done | constructor].
  - destruct (run_continues (adds_of sep c) [] [] [] []) as (fs & HF & Hc);
      [done | done | unfold len; simpl; lia |].
    rewrite nws_concat_adds_of in Hc by done. cbn [app] in Hc.
    destruct Hb as (d & Hd & Hl & Hp & Hs). rewrite Hd in Hc.
    by apply (continues_cut pre b _ fs [] d).
Qed.

Lemma bind_segment_continues sep pre chunks bodies :
  sep <> [] -> continues pre chunks bodies ->
  exists hs,
    continues pre (chunks ≫= segment chunk_size overlap sep) hs
    /\ concat hs = concat bodies.
Proof.
  intros Hsep. induction 1 as [pre|pre c b chunks bodies Hcb _ IH].
  - exists []. split; [constructor | done].
  - destruct IH as (hs & HF & Hhs).
    destruct (segment_continues sep pre c b Hsep Hcb) as (hs0 & HF0 & Hb0).
    exists (hs0 ++ hs). rewrite bind_cons. split.
    + apply continues_app; [done|]. by rewrite Hb0.
    + rewrite concat_app, Hb0, Hhs. done.
Qed.

Lemma filter_continues pre chunks bodies :
  continues pre chunks bodies ->
  exists hs,
    continues pre (filter (fun c => strip c <> []) chunks) hs
    /\ concat hs = concat bodies.
Proof.
  induction 1 as [pre|pre c b chunks bodies Hcb _ IH].
  - exists []. split; [constructor | done].
  - destruct IH as (hs & HF & Hhs).
    destruct (decide (strip c = [])) as [Hblank|Hne].
    + rewrite filter_cons_False by (intros H; by apply H).
      destruct Hcb as (d & Hd & _). rewrite (strip_nil_nws c Hblank) in Hd.
      symmetry in Hd. apply app_eq_nil in Hd as [_ ->].
      rewrite app_nil_r in HF. exists hs. by split.
    + rewrite filter_cons_True by done.
      exists (b :: hs). split; [by constructor|]. simpl. by rewrite Hhs.
Qed.

Lemma chunk_text_covers_once text :
  covers_once overlap (_chunk_text text chunk_size overlap) text.
Proof.
  rewrite chunk_text_unfold. unfold covers_once.
  destruct (bool_decide (text = [])) eqn:E1; cbn [orb].
  { apply bool_decide_eq_true in E1 as ->.
    exists []. split; [constructor | done]. }
  destruct (bool_decide (strip text = [])) eqn:E2.
  { apply bool_decide_eq_true in E2. exists []. split; [constructor|].
    symmetry. by apply strip_nil_nws. }
  assert (continues [] [text] [nws text]) as H0.
  { constructor; [|constructor]. exists []. split; [done|].
    split; [unfold len; simpl; lia|]. split; [apply piece_of_refl | done]. }
  destruct (bind_segment_continues [NL; NL] _ _ _ ltac:(done) H0)
    as (b1 & H1 & Hc1).
  destruct (bind_segment_continues [NL] _ _ _ ltac:(done) H1)
    as (b2 & H2 & Hc2).
  destruct (bind_segment_continues [DOT; SP] _ _ _ ltac:(done) H2)
    as (b3 & H3 & Hc3).
  destruct (bind_segment_continues [SP] _ _ _ ltac:(done) H3)
    as (b4 & H4 & Hc4).
  destruct (filter_continues _ _ _ H4) as (b5 & H5 & Hc5).
  exists b5. split; [done|].
  rewrite Hc5, Hc4, Hc3, Hc2, Hc1. simpl. by rewrite app_nil_r.
Qed.

End CoverageOnce.

(** A chunk may hold copies only: with [chunk_size = 6] and [overlap = 5]
    the second chunk of the two lines ["aa bb"] and ["cccccccc"] is
    ["abb"], the copy of the end of the first line that was made at the
    line level, cut off from what follows it at the whitespace level. *)
Lemma chunk_of_copies_only :
  Chunker._chunk_text (Str.lit "aa bb" ++ Str.NL :: Str.lit "cccccccc") 6 5
  = [Str.lit "aa bb"; Str.lit "abb"; Str.lit "abbcccccccc"].
Proof. vm_compute. reflexivity. Qed.

(** C2. For every text, maximum size and overlap, [_chunk_text] returns a
    list of chunks (its loops run over finite lists, so it is a total
    function), and the chunks hold every non-whitespace character of the
    text exactly once and in the order of the text, the characters copied
    for the overlap apart: whitespace apart, each chunk is a copy followed
    by a body; the bodies, one after the other, are exactly the
    non-whitespace characters of the text in their order; and the copy
    has at most [max 0 overlap] characters, all taken in one piece from the
    text that the bodies before it hold: its very end, whenever the chunk
    has a body. *)
Theorem chunk_text_terminates_and_covers_once text chunk_size overlap :
  exists chunks,
    Chunker._chunk_text text chunk_size overlap = chunks
    /\ covers_once overlap chunks text.
Proof.
  eexists. split; [reflexivity|]. apply chunk_text_covers_once.
Qed.
